(** * flowDb: the in-memory flowchart model of mermaid

    A shallow embedding of [src/diagrams/flowchart/flowDb.js].

    The module keeps its registries in module-level variables; here they are
    the fields of one [State] record that every operation threads through.
    JavaScript exceptions are explicit: an operation returns an [Outcome]
    together with the state reached when it stopped, so the mutations done
    before a [TypeError] stay visible, as they do in the source.

    Modelling conventions
    - strings are [string]s of 8-bit code units; the white space of [trim]
      and of the regular expression classes is the part of the ECMAScript
      white space set that lies in that range;
    - objects used as dictionaries ([vertices], [classes], [tooltips],
      [subGraphLookup]) are finite maps over their own keys: the names they
      inherit from [Object.prototype], and from [Array.prototype] where the
      source puts an array in their place, are outside the model. On an id
      that is such a name the source finds the inherited value where the
      map finds nothing; a theorem that reads or writes a registry under a
      given id therefore assumes [ownName] of that id wherever the two
      would differ. The bookkeeping object of [uniq] is modelled with the
      two names that matter to it, ['hasOwnProperty'] and ['__proto__'];
    - the arrays that the source shares between several owners (the style
      list handed to [updateLink], the subgraph records reachable both from
      [subGraphs] and from [subGraphLookup]) are stored once and referred to
      by position. *)

From Stdlib Require Import ZArith Ascii String List Bool Lia DecimalString.
From Stdlib Require DecimalNat DecimalFacts.
From stdpp Require Import base option list gmap strings.

Local Open Scope string_scope.
Local Open Scope list_scope.

(** ** Characters and strings as the source uses them *)

Module JsString.

(** [/\d/] on a single character. *)
Definition is_digit (c : ascii) : bool :=
  let n := nat_of_ascii c in (48 <=? n)%nat && (n <=? 57)%nat.

(** White space of [String.prototype.trim] and of [\s] (so [\S] is its
    complement): TAB, LF, VT, FF, CR, SPACE and NBSP. *)
Definition is_space (c : ascii) : bool :=
  let n := nat_of_ascii c in
  ((9 <=? n)%nat && (n <=? 13)%nat) || (n =? 32)%nat || (n =? 160)%nat.

Fixpoint drop_space (s : string) : string :=
  match s with
  | String c s' => if is_space c then drop_space s' else s
  | EmptyString => EmptyString
  end.

(** The string without its trailing white space. *)
Fixpoint drop_space_end (s : string) : string :=
  match s with
  | EmptyString => EmptyString
  | String c s' =>
      match drop_space_end s' with
      | EmptyString => if is_space c then EmptyString else String c EmptyString
      | r => String c r
      end
  end.

(** [s.trim()] *)
Definition trim (s : string) : string := drop_space_end (drop_space s).

(** [s[0]]; [None] is [undefined]. *)
Definition head (s : string) : option ascii :=
  match s with
  | String c _ => Some c
  | EmptyString => None
  end.

(** [s[s.length - 1]] *)
Fixpoint last (s : string) : option ascii :=
  match s with
  | EmptyString => None
  | String c EmptyString => Some c
  | String _ s' => last s'
  end.

(** [s.substring(a, b)] on natural arguments: both are clamped to the
    length, and they are swapped when [a] is larger than [b]. *)
Definition substring (a b : nat) (s : string) : string :=
  let n := String.length s in
  let a' := Nat.min a n in
  let b' := Nat.min b n in
  let lo := Nat.min a' b' in
  let hi := Nat.max a' b' in
  String.substring lo (hi - lo) s.

(** [s.match(/.*c/)] as a truth value, for a literal character [c]. The
    expression is not anchored, so it matches exactly when [c] occurs
    somewhere in [s]. *)
Fixpoint contains (c : ascii) (s : string) : bool :=
  match s with
  | EmptyString => false
  | String d s' => Ascii.eqb c d || contains c s'
  end.

(** [s.match(/\s/)] as a truth value. *)
Fixpoint has_space (s : string) : bool :=
  match s with
  | EmptyString => false
  | String c s' => is_space c || has_space s'
  end.

(** [s.split(',')]: never empty, [""] gives [[""]]. *)
Fixpoint split_comma (s : string) : list string :=
  match s with
  | EmptyString => [EmptyString]
  | String c s' =>
      if Ascii.eqb c ","%char then EmptyString :: split_comma s'
      else match split_comma s' with
           | x :: r => String c x :: r
           | [] => [String c EmptyString]
           end
  end.

(** Does [pat] occur in [s]? *)
Fixpoint includes (pat s : string) : bool :=
  String.prefix pat s ||
  match s with
  | EmptyString => false
  | String _ s' => includes pat s'
  end.

(** [s.replace(re, rep)] for a global expression [re]. [m] tells, for the
    text that starts at the current position, how many characters a match
    of [re] takes there (every expression of this file matches at least one
    character). The scan goes left to right and resumes after each match;
    [skip] counts the characters of the current match still to pass. *)
Fixpoint replace_scan (m : string -> option nat) (rep : string)
    (skip : nat) (s : string) : string :=
  match s with
  | EmptyString => EmptyString
  | String c s' =>
      match skip with
      | S k => replace_scan m rep k s'
      | O =>
          match m s with
          | Some (S k) => rep ++ replace_scan m rep k s'
          | _ => String c (replace_scan m rep O s')
          end
      end
  end.

Definition replace_all (m : string -> option nat) (rep s : string) : string :=
  replace_scan m rep 0 s.

(** A literal pattern. *)
Definition lit (pat : string) (s : string) : option nat :=
  if String.prefix pat s then Some (String.length pat) else None.

(** The tail [\S*?\/>] of [/<br\S*?\/>/]: the lazy star takes as few
    characters as it can, so the match ends at the first ["/>"] that is
    reached through non-space characters only. The result is the number of
    characters taken. *)
Fixpoint lazy_nonspace_then_close (s : string) : option nat :=
  if String.prefix "/>" s then Some 2
  else match s with
       | EmptyString => None
       | String c s' =>
           if is_space c then None
           else match lazy_nonspace_then_close s' with
                | Some k => Some (S k)
                | None => None
                end
       end.

(** [/<br\S*?\/>/] *)
Definition br_tag (s : string) : option nat :=
  match s with
  | String "<" (String "b" (String "r" s')) =>
      match lazy_nonspace_then_close s' with
      | Some k => Some (3 + k)
      | None => None
      end
  | _ => None
  end.

End JsString.

(** ** Values and records *)

(** An argument that the caller may omit or pass as [null]. *)
Inductive JsArg (A : Type) : Type :=
  | Undefined
  | Null
  | Given (a : A).
Arguments Undefined {A}.
Arguments Null {A}.
Arguments Given {A} a.

(** [{ id, styles, classes, text, type, link }] *)
Record Vertex := mkVertex {
  vertex_id : string;
  vertex_text : option string;
  vertex_type : option string;
  vertex_styles : list string;
  vertex_classes : list string;
  vertex_link : option string
}.

(** The descriptor the parser hands to [addLink]: [{ type, stroke, text }]. *)
Record LinkType := mkLinkType {
  lt_type : option string;
  lt_stroke : option string;
  lt_text : option string
}.

(** A reference to a style array: its position in [styleArrays]. *)
Abbreviation StyleRef := nat.

(** [{ start, end, type, text, stroke, style, interpolate }] *)
Record Edge := mkEdge {
  edge_start : string;
  edge_end : string;
  edge_type : option string;
  edge_text : string;
  edge_stroke : option string;
  edge_style : option StyleRef;
  edge_interpolate : option string
}.

(** [{ id, styles }] *)
Record ClassDef := mkClassDef {
  class_id : string;
  class_styles : list string
}.

(** [{ id, nodes, title, classes }] *)
Record SubGraph := mkSubGraph {
  sg_id : string;
  sg_nodes : list string;
  sg_title : string;
  sg_classes : list string
}.

(** The entries of [funs]: the tooltip set-up and the click bindings, each a
    closure over a vertex id and the name of a global function. *)
Inductive Fun :=
  | setupToolTips
  | clickBinding (id functionName : string).

(** An entry of [positions] in the bulk edge updates. *)
Inductive Position :=
  | Default
  | At (pos : Z).

#[global] Instance Vertex_eq_dec : EqDecision Vertex.
Proof. solve_decision. Defined.
#[global] Instance LinkType_eq_dec : EqDecision LinkType.
Proof. solve_decision. Defined.
#[global] Instance Edge_eq_dec : EqDecision Edge.
Proof. solve_decision. Defined.
#[global] Instance SubGraph_eq_dec : EqDecision SubGraph.
Proof. solve_decision. Defined.

(** ** The module state *)

Record State := mkState {
  vertices : gmap string Vertex;
  edges : list Edge;
  edges_defaultStyle : option StyleRef;        (* edges.defaultStyle *)
  edges_defaultInterpolate : option string;    (* edges.defaultInterpolate *)
  classes : gmap string ClassDef;
  subGraphs : list SubGraph;
  subGraphLookup : gmap string nat;            (* id to position in subGraphs *)
  tooltips : gmap string string;
  subCount : nat;
  firstGraphFlag : bool;
  direction : option string;
  funs : list Fun;
  secCount : Z;
  posCrossRef : gmap Z Z;
  styleArrays : list (list string)             (* the style arrays allocated so far *)
}.

Definition with_vertices v (st : State) :=
  mkState v (edges st) (edges_defaultStyle st) (edges_defaultInterpolate st)
    (classes st) (subGraphs st) (subGraphLookup st) (tooltips st) (subCount st)
    (firstGraphFlag st) (direction st) (funs st) (secCount st) (posCrossRef st)
    (styleArrays st).
Definition with_edges e (st : State) :=
  mkState (vertices st) e (edges_defaultStyle st) (edges_defaultInterpolate st)
    (classes st) (subGraphs st) (subGraphLookup st) (tooltips st) (subCount st)
    (firstGraphFlag st) (direction st) (funs st) (secCount st) (posCrossRef st)
    (styleArrays st).
Definition with_defaultStyle d (st : State) :=
  mkState (vertices st) (edges st) d (edges_defaultInterpolate st)
    (classes st) (subGraphs st) (subGraphLookup st) (tooltips st) (subCount st)
    (firstGraphFlag st) (direction st) (funs st) (secCount st) (posCrossRef st)
    (styleArrays st).
Definition with_defaultInterpolate d (st : State) :=
  mkState (vertices st) (edges st) (edges_defaultStyle st) d
    (classes st) (subGraphs st) (subGraphLookup st) (tooltips st) (subCount st)
    (firstGraphFlag st) (direction st) (funs st) (secCount st) (posCrossRef st)
    (styleArrays st).
Definition with_classes c (st : State) :=
  mkState (vertices st) (edges st) (edges_defaultStyle st) (edges_defaultInterpolate st)
    c (subGraphs st) (subGraphLookup st) (tooltips st) (subCount st)
    (firstGraphFlag st) (direction st) (funs st) (secCount st) (posCrossRef st)
    (styleArrays st).
Definition with_subGraphs s (st : State) :=
  mkState (vertices st) (edges st) (edges_defaultStyle st) (edges_defaultInterpolate st)
    (classes st) s (subGraphLookup st) (tooltips st) (subCount st)
    (firstGraphFlag st) (direction st) (funs st) (secCount st) (posCrossRef st)
    (styleArrays st).
Definition with_subGraphLookup l (st : State) :=
  mkState (vertices st) (edges st) (edges_defaultStyle st) (edges_defaultInterpolate st)
    (classes st) (subGraphs st) l (tooltips st) (subCount st)
    (firstGraphFlag st) (direction st) (funs st) (secCount st) (posCrossRef st)
    (styleArrays st).
Definition with_tooltips t (st : State) :=
  mkState (vertices st) (edges st) (edges_defaultStyle st) (edges_defaultInterpolate st)
    (classes st) (subGraphs st) (subGraphLookup st) t (subCount st)
    (firstGraphFlag st) (direction st) (funs st) (secCount st) (posCrossRef st)
    (styleArrays st).
Definition with_subCount n (st : State) :=
  mkState (vertices st) (edges st) (edges_defaultStyle st) (edges_defaultInterpolate st)
    (classes st) (subGraphs st) (subGraphLookup st) (tooltips st) n
    (firstGraphFlag st) (direction st) (funs st) (secCount st) (posCrossRef st)
    (styleArrays st).
Definition with_firstGraphFlag b (st : State) :=
  mkState (vertices st) (edges st) (edges_defaultStyle st) (edges_defaultInterpolate st)
    (classes st) (subGraphs st) (subGraphLookup st) (tooltips st) (subCount st)
    b (direction st) (funs st) (secCount st) (posCrossRef st)
    (styleArrays st).
Definition with_direction d (st : State) :=
  mkState (vertices st) (edges st) (edges_defaultStyle st) (edges_defaultInterpolate st)
    (classes st) (subGraphs st) (subGraphLookup st) (tooltips st) (subCount st)
    (firstGraphFlag st) d (funs st) (secCount st) (posCrossRef st)
    (styleArrays st).
Definition with_funs f (st : State) :=
  mkState (vertices st) (edges st) (edges_defaultStyle st) (edges_defaultInterpolate st)
    (classes st) (subGraphs st) (subGraphLookup st) (tooltips st) (subCount st)
    (firstGraphFlag st) (direction st) f (secCount st) (posCrossRef st)
    (styleArrays st).
Definition with_secCount n (st : State) :=
  mkState (vertices st) (edges st) (edges_defaultStyle st) (edges_defaultInterpolate st)
    (classes st) (subGraphs st) (subGraphLookup st) (tooltips st) (subCount st)
    (firstGraphFlag st) (direction st) (funs st) n (posCrossRef st)
    (styleArrays st).
Definition with_posCrossRef p (st : State) :=
  mkState (vertices st) (edges st) (edges_defaultStyle st) (edges_defaultInterpolate st)
    (classes st) (subGraphs st) (subGraphLookup st) (tooltips st) (subCount st)
    (firstGraphFlag st) (direction st) (funs st) (secCount st) p
    (styleArrays st).
Definition with_styleArrays a (st : State) :=
  mkState (vertices st) (edges st) (edges_defaultStyle st) (edges_defaultInterpolate st)
    (classes st) (subGraphs st) (subGraphLookup st) (tooltips st) (subCount st)
    (firstGraphFlag st) (direction st) (funs st) (secCount st) (posCrossRef st)
    a.

(** The values of the module-level declarations when the module is loaded
    (lines 8 to 18, 354, 431 and 432). *)
Definition initial : State :=
  mkState ∅ [] None None ∅ [] ∅ ∅ 0 true None [setupToolTips] (-1)%Z ∅ [].

(** ** Computations that may throw *)

Inductive Exn := TypeError.

(** [OutOfFuel] is not a JavaScript outcome: it marks a run of the fuelled
    traversal that was given too little fuel to reach its end. *)
Inductive Outcome (A : Type) : Type :=
  | Ok (a : A)
  | Throw (e : Exn)
  | OutOfFuel.
Arguments Ok {A} a.
Arguments Throw {A} e.
Arguments OutOfFuel {A}.

Definition JS (A : Type) : Type := State -> Outcome A * State.

Definition ret {A} (a : A) : JS A := fun st => (Ok a, st).

Definition throw {A} (e : Exn) : JS A := fun st => (Throw e, st).

Definition bind {A B} (c : JS A) (k : A -> JS B) : JS B :=
  fun st =>
    match c st with
    | (Ok a, st') => k a st'
    | (Throw e, st') => (Throw e, st')
    | (OutOfFuel, st') => (OutOfFuel, st')
    end.

Definition get : JS State := fun st => (Ok st, st).

Definition modify (f : State -> State) : JS unit := fun st => (Ok tt, f st).

Notation "'let*' x ':=' c 'in' k" := (bind c (fun x => k))
  (at level 10, x pattern, c at level 100, k at level 200).
Notation "c ';;' k" := (bind c (fun _ => k))
  (at level 100, k at level 200, right associativity).

(** [l.forEach(f)] *)
Fixpoint forEach {A} (f : A -> JS unit) (l : list A) : JS unit :=
  match l with
  | [] => ret tt
  | x :: l' => f x ;; forEach f l'
  end.

(** The state a computation ends in, and what it returns. *)
Definition exec {A} (c : JS A) (st : State) : State := snd (c st).
Definition outcome {A} (c : JS A) (st : State) : Outcome A := fst (c st).

(** ** The operations of flowDb.js *)

(** What the module takes from its imports: the security level of
    [getConfig()] and [sanitizeUrl] of [@braintree/sanitize-url]. *)
Record Env := mkEnv {
  securityLevel : string;
  sanitizeUrl : string -> string
}.

(** The double quote character. *)
Definition dquote : ascii := ascii_of_nat 34.

(** The inline test [x[0].match(/\d/)] followed by [x = 's' + x], as every
    ingestion point repeats it (lines 51, 99, 100, 197, 218, 250, 409, 413).
    On the empty string [x[0]] is [undefined] and the call of [match] on it
    throws. *)
Definition prefixIfDigit (x : string) : JS string :=
  match JsString.head x with
  | None => throw TypeError
  | Some c => ret (if JsString.is_digit c then "s" +:+ x else x)
  end.

(** Reading a property of a value that may be [undefined]. *)
Definition defined {A} (x : option A) : JS A :=
  match x with
  | Some a => ret a
  | None => throw TypeError
  end.

(** The quote stripping of lines 60 to 62 and 110 to 112. *)
Definition stripQuotes (txt : string) : string :=
  if bool_decide (JsString.head txt = Some dquote)
     && bool_decide (JsString.last txt = Some dquote)
  then JsString.substring 1 (String.length txt - 1) txt
  else txt.

(** Modelled from the spec: [utils.isSubstringInArray] lives in [utils.js],
    which is not part of the sources at hand. It gives the position of the
    first entry of [arr] in which [str] occurs, and [-1] when there is none
    ("a fill is already present"). *)
Fixpoint isSubstringInArray (str : string) (arr : list string) : Z :=
  match arr with
  | [] => (-1)%Z
  | x :: arr' =>
      if JsString.includes str x then 0%Z
      else let i := isSubstringInArray str arr' in
           if (i =? -1)%Z then (-1)%Z else (i + 1)%Z
  end.

Section FlowDb.

Variable env : Env.

(** Lines 20 to 31. *)
Definition sanitize (text : string) : string :=
  let txt := text in
  if negb (String.eqb (securityLevel env) "loose") then
    let txt := JsString.replace_all (JsString.lit "<br>") "#br#" txt in
    let txt := JsString.replace_all JsString.br_tag "#br#" txt in
    let txt := JsString.replace_all (JsString.lit "<") "&lt;" txt in
    let txt := JsString.replace_all (JsString.lit ">") "&gt;" txt in
    let txt := JsString.replace_all (JsString.lit "=") "&equals;" txt in
    let txt := JsString.replace_all (JsString.lit "#br#") "<br/>" txt in
    txt
  else txt.

(** [vertices[id].f = ...] and [vertices[id].f.push(...)] on a record that
    exists; on a missing one the property access throws. *)
Definition updateVertex (id : string) (f : Vertex -> Vertex) : JS unit :=
  let* st := get in
  let* v := defined (vertices st !! id) in
  modify (with_vertices (<[id := f v]> (vertices st))).

Definition set_vertex_text t (v : Vertex) :=
  mkVertex (vertex_id v) t (vertex_type v) (vertex_styles v) (vertex_classes v) (vertex_link v).
Definition set_vertex_type t (v : Vertex) :=
  mkVertex (vertex_id v) (vertex_text v) t (vertex_styles v) (vertex_classes v) (vertex_link v).
Definition push_vertex_style s (v : Vertex) :=
  mkVertex (vertex_id v) (vertex_text v) (vertex_type v) (vertex_styles v ++ [s]) (vertex_classes v) (vertex_link v).
Definition push_vertex_class s (v : Vertex) :=
  mkVertex (vertex_id v) (vertex_text v) (vertex_type v) (vertex_styles v) (vertex_classes v ++ [s]) (vertex_link v).
Definition set_vertex_link l (v : Vertex) :=
  mkVertex (vertex_id v) (vertex_text v) (vertex_type v) (vertex_styles v) (vertex_classes v) l.

(** [!x] for a string that may be [undefined]. *)
Definition falsy (x : option string) : bool :=
  match x with
  | None => true
  | Some s => String.eqb s EmptyString
  end.

(** Lines 41 to 87. The test of line 53 is the lookup in the finite map,
    which is what the source does on an id that is an own name. *)
Definition addVertex (_id : option string) (text type : option string)
    (style classes : JsArg (list string)) : JS unit :=
  match _id with
  | None => ret tt
  | Some raw =>
      if (String.length (JsString.trim raw) =? 0)%nat then ret tt
      else
        let* id := prefixIfDigit raw in
        let* st := get in
        (match vertices st !! id with
         | None => modify (with_vertices (<[id := mkVertex id None None [] [] None]> (vertices st)))
         | Some _ => ret tt
         end) ;;
        (match text with
         | Some text =>
             let txt := sanitize (JsString.trim text) in
             updateVertex id (set_vertex_text (Some (stripQuotes txt)))
         | None =>
             let* st := get in
             let* v := defined (vertices st !! id) in
             if falsy (vertex_text v) then updateVertex id (set_vertex_text (Some raw))
             else ret tt
         end) ;;
        (match type with
         | Some ty => updateVertex id (set_vertex_type (Some ty))
         | None => ret tt
         end) ;;
        (match style with
         | Given style => forEach (fun s => updateVertex id (push_vertex_style s)) style
         | _ => ret tt
         end) ;;
        (match classes with
         | Given classes => forEach (fun s => updateVertex id (push_vertex_class s)) classes
         | _ => ret tt
         end)
  end.

(** The text an edge gets from [linktext] once line 104 has replaced it
    (lines 106 to 113); ['']  when it is [undefined]. *)
Definition edgeText (linktext : option string) : string :=
  match linktext with
  | Some l => stripQuotes (sanitize (JsString.trim l))
  | None => EmptyString
  end.

(** Lines 96 to 120. *)
Definition addLink (_start _end : option string) (type : option LinkType)
    (linktext : option string) : JS unit :=
  let* start := defined _start in
  let* start := prefixIfDigit start in
  let* end_ := defined _end in
  let* end_ := prefixIfDigit end_ in
  (* linktext = type.text *)
  let* ty := defined type in
  let linktext := lt_text ty in
  let edge := mkEdge start end_ (lt_type ty) (edgeText linktext) (lt_stroke ty) None None in
  modify (fun st => with_edges (edges st ++ [edge]) st).

(** [edges[pos]] for an integer [pos]. *)
Definition edgeAt (pos : Z) (st : State) : option Edge :=
  if (pos <? 0)%Z then None else edges st !! Z.to_nat pos.

Definition set_edge_interpolate i (e : Edge) :=
  mkEdge (edge_start e) (edge_end e) (edge_type e) (edge_text e) (edge_stroke e) (edge_style e) i.
Definition set_edge_style s (e : Edge) :=
  mkEdge (edge_start e) (edge_end e) (edge_type e) (edge_text e) (edge_stroke e) s (edge_interpolate e).

(** [edges[pos].f = ...]: throws when [edges[pos]] is [undefined]. *)
Definition updateEdge (pos : Z) (f : Edge -> Edge) : JS unit :=
  let* st := get in
  let* e := defined (edgeAt pos st) in
  modify (with_edges (<[Z.to_nat pos := f e]> (edges st))).

(** Lines 127 to 135. *)
Definition updateLinkInterpolate (positions : list Position) (interp : string) : JS unit :=
  forEach (fun pos =>
    match pos with
    | Default => modify (with_defaultInterpolate (Some interp))
    | At pos => updateEdge pos (set_edge_interpolate (Some interp))
    end) positions.

(** The array behind a reference. *)
Definition styleOf (r : StyleRef) (st : State) : list string :=
  default [] (styleArrays st !! r).

(** The caller's array enters the store; the result refers to it. *)
Definition allocStyle (style : list string) : JS StyleRef :=
  let* st := get in
  modify (with_styleArrays (styleArrays st ++ [style])) ;;
  ret (length (styleArrays st)).

(** [style.push(s)] *)
Definition pushStyle (r : StyleRef) (s : string) : JS unit :=
  modify (fun st => with_styleArrays (alter (fun a => a ++ [s]) r (styleArrays st)) st).

(** The callback of lines 143 to 152, for the array [style] refers to. *)
Definition updateLink_each (style : StyleRef) (pos : Position) : JS unit :=
  match pos with
  | Default => modify (with_defaultStyle (Some style))
  | At pos =>
      let* st := get in
      (if (isSubstringInArray "fill" (styleOf style st) =? -1)%Z
       then pushStyle style "fill:none"
       else ret tt) ;;
      updateEdge pos (set_edge_style (Some style))
  end.

Definition updateLink_ref (positions : list Position) (style : StyleRef) : JS unit :=
  forEach (updateLink_each style) positions.

(** Lines 142 to 153: the parser passes a list of its own making. *)
Definition updateLink (positions : list Position) (style : list string) : JS unit :=
  let* r := allocStyle style in
  updateLink_ref positions r.

Definition push_class_style s (c : ClassDef) :=
  mkClassDef (class_id c) (class_styles c ++ [s]).

(** Lines 155 to 167, on an id that is an own name; [classes] is an array
    when the module is loaded and a plain object after [clear], and is read
    here on the keys that were assigned. *)
Definition addClass (id : string) (style : JsArg (list string)) : JS unit :=
  let* st := get in
  (match classes st !! id with
   | None => modify (with_classes (<[id := mkClassDef id []]> (classes st)))
   | Some _ => ret tt
   end) ;;
  match style with
  | Given style =>
      forEach (fun s =>
        let* st := get in
        let* c := defined (classes st !! id) in
        modify (with_classes (<[id := push_class_style s c]> (classes st)))) style
  | _ => ret tt
  end.

(** Lines 173 to 187. Every test reads the variable [direction], which the
    tests before it may have overwritten. *)
Definition setDirection (dir : string) : JS unit :=
  modify (with_direction (Some dir)) ;;
  let test (c : ascii) (d : string) : JS unit :=
    let* st := get in
    let* direction := defined (direction st) in
    if JsString.contains c direction then modify (with_direction (Some d)) else ret tt in
  test "<"%char "RL" ;;
  test "^"%char "BT" ;;
  test ">"%char "LR" ;;
  test "v"%char "TB".

Definition push_sg_class s (g : SubGraph) :=
  mkSubGraph (sg_id g) (sg_nodes g) (sg_title g) (sg_classes g ++ [s]).

(** The callback of lines 195 to 205. [subGraphLookup[id]] is the record that
    also sits in [subGraphs], so the push shows in both. The two tests are
    lookups in the finite maps, as for [addVertex]. *)
Definition setClass_each (className _id : string) : JS unit :=
  let* id := prefixIfDigit _id in
  let* st := get in
  (match vertices st !! id with
   | Some v => modify (with_vertices (<[id := push_vertex_class className v]> (vertices st)))
   | None => ret tt
   end) ;;
  let* st := get in
  match subGraphLookup st !! id with
  | Some r => modify (with_subGraphs (alter (push_sg_class className) r (subGraphs st)))
  | None => ret tt
  end.

(** Lines 194 to 206. *)
Definition setClass (ids className : string) : JS unit :=
  forEach (setClass_each className) (JsString.split_comma ids).

(** Lines 208 to 214. *)
Definition setTooltip (ids : string) (tooltip : option string) : JS unit :=
  forEach (fun id =>
    match tooltip with
    | Some tooltip =>
        modify (fun st => with_tooltips (<[id := sanitize tooltip]> (tooltips st)) st)
    | None => ret tt
    end) (JsString.split_comma ids).

(** Lines 216 to 239; the test of line 225 as in [addVertex]. *)
Definition setClickFun (_id : string) (functionName : option string) : JS unit :=
  let* id := prefixIfDigit _id in
  if negb (String.eqb (securityLevel env) "loose") then ret tt
  else
    match functionName with
    | None => ret tt
    | Some functionName =>
        let* st := get in
        match vertices st !! id with
        | Some _ => modify (with_funs (funs st ++ [clickBinding id functionName]))
        | None => ret tt
        end
    end.

(** Lines 247 to 261; the test of line 251 as in [addVertex]. *)
Definition setLink (ids linkStr : string) (tooltip : option string) : JS unit :=
  forEach (fun _id =>
    let* id := prefixIfDigit _id in
    let* st := get in
    match vertices st !! id with
    | Some v =>
        let link := if negb (String.eqb (securityLevel env) "loose")
                    then sanitizeUrl env linkStr else linkStr in
        modify (with_vertices (<[id := set_vertex_link (Some link) v]> (vertices st)))
    | None => ret tt
    end) (JsString.split_comma ids) ;;
  setTooltip ids tooltip ;;
  setClass ids "clickable".

(** Lines 262 to 264. *)
Definition getTooltip (id : string) (st : State) : option string :=
  tooltips st !! id.

(** Lines 272 to 278. *)
Definition setClickEvent (ids : string) (functionName tooltip : option string) : JS unit :=
  forEach (fun id => setClickFun id functionName) (JsString.split_comma ids) ;;
  setTooltip ids tooltip ;;
  setClass ids "clickable".

(** Lines 285 to 310: the accessors return the variable itself. For
    [getEdges] that is the array with its two extra properties, where a
    style is read through its reference. *)
Definition getDirection (st : State) : option string := direction st.
Definition getVertices (st : State) : gmap string Vertex := vertices st.
Definition getEdges (st : State) : list Edge * option (list string) * option string :=
  (edges st, (fun r => styleOf r st) <$> edges_defaultStyle st, edges_defaultInterpolate st).
Definition getClasses (st : State) : gmap string ClassDef := classes st.

(** [edges[pos].style], read through the reference. *)
Definition edgeStyle (pos : Z) (st : State) : option (list string) :=
  e ← edgeAt pos st; r ← edge_style e; Some (styleOf r st).

(** [edges.defaultStyle] *)
Definition defaultStyleOf (st : State) : option (list string) :=
  (fun r => styleOf r st) <$> edges_defaultStyle st.

(** Lines 359 to 370. [direction], [secCount], [posCrossRef] are not
    assigned here. [tooltips] becomes an empty array (line 368), which has
    no key of its own but [length]: the empty map on own names. *)
Definition clear : JS unit :=
  modify (with_vertices ∅) ;;
  modify (with_classes ∅) ;;
  modify (fun st => with_defaultInterpolate None (with_defaultStyle None (with_edges [] st))) ;;
  modify (with_funs []) ;;
  modify (fun st => with_funs (funs st ++ [setupToolTips]) st) ;;
  modify (with_subGraphs []) ;;
  modify (with_subGraphLookup ∅) ;;
  modify (with_subCount 0) ;;
  modify (with_tooltips ∅) ;;
  modify (with_firstGraphFlag true).

(** Lines 388 to 403 on an array of strings. [seen] holds the own keys of
    [prims.string], a plain object: the test of line 398 calls whatever
    [prims.string.hasOwnProperty] is, and that is [true], not a function,
    once the member ['hasOwnProperty'] has been recorded; the assignment of
    line 398 under the key ['__proto__'] reaches the setter that
    [Object.prototype] has for it, which ignores [true] and adds no key. *)
Definition record_seen (item : string) (seen : gset string) : gset string :=
  if String.eqb item "__proto__" then seen else {[item]} ∪ seen.

Fixpoint uniq_filter (seen : gset string) (a : list string) : option (list string) :=
  match a with
  | [] => Some []
  | item :: a' =>
      if String.eqb (JsString.trim item) EmptyString then uniq_filter seen a'
      else if bool_decide ("hasOwnProperty" ∈ seen) then None
      else if bool_decide (item ∈ seen) then uniq_filter seen a'
      else cons item <$> uniq_filter (record_seen item seen) a'
  end.

(** [None] stands for the [TypeError] raised inside the filter. *)
Definition uniq (a : list string) : option (list string) := uniq_filter ∅ a.

(** The loop of lines 408 to 410. *)
Fixpoint prefixEach (nodeList : list string) : JS (list string) :=
  match nodeList with
  | [] => ret []
  | x :: nodeList' =>
      let* x' := prefixIfDigit x in
      let* r := prefixEach nodeList' in
      ret (x' :: r)
  end.

(** The decimal numeral of ['subGraph' + subCount]. *)
Definition decimal (n : nat) : string :=
  DecimalString.NilZero.string_of_uint (Nat.to_uint n).

(** [x || d] on a string that may be [undefined]. *)
Definition orElse (x : option string) (d : string) : string :=
  match x with
  | Some s => if String.eqb s EmptyString then d else s
  | None => d
  end.

(** Lines 382 to 421. *)
Definition addSubGraph (_id : option string) (list : list (list string))
    (_title : option string) : JS string :=
  (* _id === _title && _title.match(/\s/) *)
  let* blankId :=
    if bool_decide (_id = _title)
    then let* t := defined _title in ret (JsString.has_space t)
    else ret false in
  let id := if blankId then None else _id in
  let* nodeList := match uniq (concat list) with
                   | Some nodeList => ret nodeList
                   | None => throw TypeError
                   end in
  let* nodeList := prefixEach nodeList in
  let* st := get in
  let id := orElse id ("subGraph" +:+ decimal (subCount st)) in
  let* id := prefixIfDigit id in
  let title := orElse _title EmptyString in
  let title := sanitize title in
  modify (with_subCount (subCount st + 1)) ;;
  let subGraph := mkSubGraph id nodeList (JsString.trim title) [] in
  let* st := get in
  modify (with_subGraphs (subGraphs st ++ [subGraph])) ;;
  modify (with_subGraphLookup (<[id := length (subGraphs st)]> (subGraphLookup st))) ;;
  ret id.

(** Lines 423 to 430. *)
Fixpoint getPosForId_from (i : Z) (l : list SubGraph) (id : string) : Z :=
  match l with
  | [] => (-1)%Z
  | g :: l' => if String.eqb (sg_id g) id then i else getPosForId_from (i + 1)%Z l' id
  end.

Definition getPosForId (id : string) (st : State) : Z :=
  getPosForId_from 0%Z (subGraphs st) id.

(** [subGraphs[pos]] *)
Definition subGraphAt (pos : Z) (st : State) : option SubGraph :=
  if (pos <? 0)%Z then None else subGraphs st !! Z.to_nat pos.

(** [{ result, count }] *)
Record IndexResult := mkResult { result : bool; count : Z }.

(** The [while] loop of lines 450 to 465 over [nodes], which nothing
    changes during the walk; [recurse] is the call of line 454. The bare
    [return] of line 437 makes that call give [undefined] ([None]), and
    line 455 reads a property of it. *)
Fixpoint indexLoop (recurse : Z -> JS (option IndexResult)) (nodes : list string)
    (posCount : Z) : JS IndexResult :=
  match nodes with
  | [] => ret (mkResult false posCount)
  | n :: nodes' =>
      let* st := get in
      let childPos := getPosForId n st in
      if (0 <=? childPos)%Z then
        let* res := recurse childPos in
        let* res := defined res in
        if result res then ret (mkResult true (posCount + count res))
        else indexLoop recurse nodes' (posCount + count res)
      else indexLoop recurse nodes' posCount
  end.

(** Lines 433 to 471. [fuel] bounds the depth of the recursion. *)
Fixpoint indexNodes2 (fuel : nat) (id : string) (pos : Z) : JS (option IndexResult) :=
  match fuel with
  | O => fun st => (OutOfFuel, st)
  | S fuel' =>
      let* st := get in
      let* sg := defined (subGraphAt pos st) in
      let nodes := sg_nodes sg in
      modify (with_secCount (secCount st + 1)) ;;
      let* st := get in
      if (2000 <? secCount st)%Z then ret None
      else
        modify (with_posCrossRef (<[secCount st := pos]> (posCrossRef st))) ;;
        if String.eqb (sg_id sg) id then ret (Some (mkResult true 0))
        else
          let* r := indexLoop (indexNodes2 fuel' id) nodes 1%Z in
          ret (Some r)
  end.

(** Lines 473 to 475. *)
Definition getDepthFirstPos (pos : Z) (st : State) : option Z :=
  posCrossRef st !! pos.

(** Lines 476 to 481, with the fuel given to the walk. *)
Definition indexNodes_fuel (fuel : nat) : JS unit :=
  modify (with_secCount (-1)%Z) ;;
  let* st := get in
  if (0 <? length (subGraphs st))%nat
  then indexNodes2 fuel "none" (Z.of_nat (length (subGraphs st)) - 1)%Z ;; ret tt
  else ret tt.

(** No walk nests deeper than 2002 calls ([indexNodes2_enough_fuel]). *)
Definition indexNodes : JS unit := indexNodes_fuel 2002.

(** Lines 483 to 485. *)
Definition getSubGraphs (st : State) : list SubGraph := subGraphs st.

(** Lines 487 to 493. *)
Definition firstGraph : JS bool :=
  let* st := get in
  if firstGraphFlag st then modify (with_firstGraphFlag false) ;; ret true
  else ret false.

End FlowDb.

(** ** Reference definitions, in the words of the specification *)

(** The canonical form of an id (section 4.1): a leading decimal digit gets
    the prefix ["s"]. *)
Definition normalize (rawId : string) : string :=
  match rawId with
  | String c _ => if JsString.is_digit c then "s" +:+ rawId else rawId
  | EmptyString => rawId
  end.

(** One layer of enclosing double quotes, when the text has one at each end. *)
Fixpoint dropLast (s : string) : string :=
  match s with
  | EmptyString => EmptyString
  | String _ EmptyString => EmptyString
  | String c s' => String c (dropLast s')
  end.

Definition unquote (s : string) : string :=
  match s with
  | String q r =>
      if bool_decide (q = dquote) && bool_decide (JsString.last r = Some dquote)
      then dropLast r else s
  | EmptyString => s
  end.

(** The resolution of a direction token that lets the last matching test win
    (section 4.7, as worded). *)
Definition resolveLastMatch (token : string) : string :=
  let d := token in
  let d := if JsString.contains "<" token then "RL" else d in
  let d := if JsString.contains "^" token then "BT" else d in
  let d := if JsString.contains ">" token then "LR" else d in
  let d := if JsString.contains "v" token then "TB" else d in
  d.

(** The resolution that lets the first matching test win. *)
Definition resolveFirstMatch (token : string) : string :=
  if JsString.contains "<" token then "RL"
  else if JsString.contains "^" token then "BT"
  else if JsString.contains ">" token then "LR"
  else if JsString.contains "v" token then "TB"
  else token.

(** The text of the descriptor, as the edge keeps it: trimmed, sanitized,
    and without one layer of enclosing double quotes. *)
Definition derivedText (env : Env) (type : LinkType) : string :=
  match lt_text type with
  | Some text => unquote (sanitize env (JsString.trim text))
  | None => EmptyString
  end.

(** A member that is not blank: something is left of it after trimming. *)
Definition nonBlank (member : string) : Prop := JsString.trim member <> EmptyString.

#[global] Instance nonBlank_dec member : Decision (nonBlank member).
Proof. unfold nonBlank. apply _. Defined.

(** Duplicates removed, the first occurrence of each entry kept in place. *)
Fixpoint dedupFirst (l : list string) : list string :=
  match l with
  | [] => []
  | x :: l' => x :: filter (fun y => y <> x) (dedupFirst l')
  end.

(** The member list of a subgraph (section 4.5): the lists flattened, blanks
    and duplicates removed, each member left then normalized. *)
Definition memberList (memberLists : list (list string)) : list string :=
  normalize <$> dedupFirst (filter nonBlank (concat memberLists)).

(** The id under which [addSubGraph] registers: the given one, unless it is
    the title and has white space in it, or is missing or empty; then the
    next synthetic id. *)
Definition finalId (_id _title : option string) (subCount : nat) : string :=
  let id :=
    if bool_decide (_id = _title) && JsString.has_space (default EmptyString _title)
    then None else _id in
  normalize (orElse id ("subGraph" +:+ decimal subCount)).

(** ** Sessions: sequences of calls *)

(** A call of one of the exported operations that change the state. *)
Inductive Call :=
  | CallAddVertex (_id text type : option string) (style classes : JsArg (list string))
  | CallAddLink (_start _end : option string) (type : option LinkType) (linktext : option string)
  | CallUpdateLinkInterpolate (positions : list Position) (interp : string)
  | CallUpdateLink (positions : list Position) (style : list string)
  | CallAddClass (id : string) (style : JsArg (list string))
  | CallSetDirection (dir : string)
  | CallSetClass (ids className : string)
  | CallSetLink (ids linkStr : string) (tooltip : option string)
  | CallSetClickEvent (ids : string) (functionName tooltip : option string)
  | CallAddSubGraph (_id : option string) (list : list (list string)) (_title : option string)
  | CallClear
  | CallIndexNodes
  | CallFirstGraph.

Definition call (env : Env) (c : Call) : JS unit :=
  match c with
  | CallAddVertex _id text type style classes => addVertex env _id text type style classes
  | CallAddLink _start _end type linktext => addLink env _start _end type linktext
  | CallUpdateLinkInterpolate positions interp => updateLinkInterpolate positions interp
  | CallUpdateLink positions style => updateLink positions style
  | CallAddClass id style => addClass id style
  | CallSetDirection dir => setDirection dir
  | CallSetClass ids className => setClass ids className
  | CallSetLink ids linkStr tooltip => setLink env ids linkStr tooltip
  | CallSetClickEvent ids functionName tooltip => setClickEvent env ids functionName tooltip
  | CallAddSubGraph _id list _title => addSubGraph env _id list _title ;; ret tt
  | CallClear => clear
  | CallIndexNodes => indexNodes
  | CallFirstGraph => firstGraph ;; ret tt
  end.

(** The state after a sequence of calls; a call that throws leaves the state
    it had reached, and the next call goes on from there. *)
Definition run (env : Env) (calls : list Call) (st : State) : State :=
  foldl (fun st c => exec (call env c) st) st calls.

(** The two views of the subgraph registry agree: the ordered list has as
    many records as the counter says, every id of the lookup leads to the
    last record of the list that carries it, and every record of the list
    has its id in the lookup. *)
Definition lookupConsistent (st : State) : Prop :=
  length (subGraphs st) = subCount st /\
  (forall id r, subGraphLookup st !! id = Some r ->
     (exists g, subGraphs st !! r = Some g /\ sg_id g = id) /\
     (forall j g', subGraphs st !! j = Some g' -> sg_id g' = id -> j <= r)) /\
  (forall g, g ∈ subGraphs st -> is_Some (subGraphLookup st !! sg_id g)).

(** A computation that keeps a property of the state, however it ends. *)
Definition preserves (P : State -> Prop) {A} (c : JS A) : Prop :=
  forall st, P st -> P (snd (c st)).

(** A state change that leaves the subgraph registry as it is. *)
Definition framesSubGraphs (f : State -> State) : Prop :=
  forall st, subGraphs (f st) = subGraphs st /\
             subGraphLookup (f st) = subGraphLookup st /\
             subCount (f st) = subCount st.

(** ** Edge styles *)

(** Is there an integer entry among the positions? *)
Definition hasIndex (positions : list Position) : bool :=
  existsb (fun p => match p with At _ => true | Default => false end) positions.

(** The style list with ["fill:none"] at its end, unless one of its entries
    has ["fill"] in it. *)
Definition withFill (style : list string) : list string :=
  if (isSubstringInArray "fill" style =? -1)%Z then style ++ ["fill:none"] else style.

(** An entry of [positions] that is the sentinel or the index of one of [n]
    edges. *)
Definition inRange (n : nat) (p : Position) : Prop :=
  match p with
  | Default => True
  | At i => (0 <= i < Z.of_nat n)%Z
  end.

(** ** Runs of the indexer *)

(** A run that did not stop for want of fuel, and whose visit counter is at
    least [s] at its end. *)
Definition endsFrom {A} (s : Z) (r : Outcome A * State) : Prop :=
  fst r <> OutOfFuel /\ (s <= secCount (snd r))%Z.

(** ** Shapes of texts *)

(** A text in which angle brackets occur only as parts of complete [<br/>]
    tags; [skip] counts the characters of the current tag still to pass. *)
Fixpoint onlyBrTags_scan (skip : nat) (s : string) : bool :=
  match s with
  | EmptyString => true
  | String c s' =>
      match skip with
      | S k => onlyBrTags_scan k s'
      | O =>
          if String.prefix "<br/>" s then onlyBrTags_scan 4 s'
          else negb (Ascii.eqb c "<") && negb (Ascii.eqb c ">") && onlyBrTags_scan 0 s'
      end
  end.

Definition onlyBrTags (s : string) : bool := onlyBrTags_scan 0 s.

(** A text that does not begin with a decimal digit, and is not empty. *)
Definition canonical (id : string) : Prop :=
  exists c, JsString.head id = Some c /\ JsString.is_digit c = false.

(** ** Vertex records *)

(** The entries an optional list argument brings. *)
Definition givenList (a : JsArg (list string)) : list string :=
  match a with
  | Given l => l
  | _ => []
  end.

(** Every key of the vertex registry is the id of its record, is not blank
    and does not begin with a digit. *)
Definition vertexKeysCanonical (st : State) : Prop :=
  forall k v, vertices st !! k = Some v ->
    vertex_id v = k /\ canonical k /\ nonBlank k.

#[global] Instance Position_eq_dec : EqDecision Position.
Proof. solve_decision. Defined.

#[global] Instance inRange_dec n p : Decision (inRange n p).
Proof. destruct p; cbn [inRange]; apply _. Defined.

(** ** Declared links *)

(** The arguments of one call of [addLink] with defined endpoints and type
    descriptor: start, end, descriptor and link text. *)
Definition LinkArgs : Type := string * string * LinkType * option string.

(** The edge that such a call declares. *)
Definition declaredEdge (env : Env) (a : LinkArgs) : Edge :=
  let '(s, e, ty, _) := a in
  mkEdge (normalize s) (normalize e) (lt_type ty) (derivedText env ty) (lt_stroke ty) None None.

(** The calls of [addLink] for a list of declarations, in order. *)
Definition addLinks (env : Env) (links : list LinkArgs) : JS unit :=
  forEach (fun a : LinkArgs =>
             let '(s, e, ty, linktext) := a in
             addLink env (Some s) (Some e) (Some ty) linktext) links.

(** The endpoints of a declaration are not empty. *)
Definition endpointsGiven (a : LinkArgs) : Prop :=
  let '(s, e, _, _) := a in s <> EmptyString /\ e <> EmptyString.

(** ** Links and click bindings *)





(** ** The position table *)

(** From [st] to [st'] the subgraph list is the same, the visit counter has
    not gone down, and the position table differs only at indices above the
    counter of [st], up to 2000 and up to the counter of [st'], where it
    holds positions of subgraphs. *)
Definition tableGrowsFrom (st st' : State) : Prop :=
  subGraphs st' = subGraphs st /\
  (secCount st <= secCount st')%Z /\
  forall k,
    posCrossRef st' !! k = posCrossRef st !! k \/
    ((secCount st < k <= 2000)%Z /\ (k <= secCount st')%Z /\
     exists v, posCrossRef st' !! k = Some v /\ is_Some (subGraphAt v st)).

(** ** Names that a dictionary answers for without holding them

    The source tests its dictionaries with [typeof x[id]], and that test also
    finds what the object inherits: the properties of [Object.prototype] on
    a plain object, and on an array (the value of [classes] when the module
    is loaded, of [tooltips] after [clear]) its [length] and the properties
    of [Array.prototype] as well. The lists are those of ECMAScript up to
    the 2025 edition, with the names some engines have had beside them. *)
Definition objectPrototypeNames : list string :=
  ["__defineGetter__"; "__defineSetter__"; "__lookupGetter__"; "__lookupSetter__";
   "__proto__"; "constructor"; "hasOwnProperty"; "isPrototypeOf";
   "propertyIsEnumerable"; "toLocaleString"; "toString"; "valueOf";
   "toSource"; "watch"; "unwatch"; "__noSuchMethod__"; "__count__"; "__parent__"].

Definition arrayPrototypeNames : list string :=
  ["length"; "at"; "concat"; "copyWithin"; "entries"; "every"; "fill"; "filter";
   "find"; "findIndex"; "findLast"; "findLastIndex"; "flat"; "flatMap"; "forEach";
   "includes"; "indexOf"; "join"; "keys"; "lastIndexOf"; "map"; "pop"; "push";
   "reduce"; "reduceRight"; "reverse"; "shift"; "slice"; "some"; "sort"; "splice";
   "toReversed"; "toSorted"; "toSpliced"; "unshift"; "values"; "with";
   "group"; "groupToMap"; "groupBy"; "groupByToMap"; "flatten"; "lastItem";
   "lastIndex"].

(** An id that a dictionary of the source answers for only when it holds it
    as a key of its own: on such an id the finite maps of [State] and the
    dictionaries of the source agree. *)
Definition ownName (id : string) : Prop :=
  id ∉ objectPrototypeNames ++ arrayPrototypeNames.

#[global] Instance ownName_dec id : Decision (ownName id).
Proof. unfold ownName. apply _. Defined.


(** A name with a digit in second place; no inherited name is one. *)
Definition digitSecond (name : string) : bool :=
  match name with
  | String _ (String c _) => JsString.is_digit c
  | _ => false
  end.

(** Member lists on which the filter of lines 388 to 403 meets neither of
    the two members that its bookkeeping object treats apart. *)
Definition plainMembers (members : list string) : Prop :=
  ("hasOwnProperty" ∉ members) /\ ("__proto__" ∉ members).

#[global] Instance plainMembers_dec members : Decision (plainMembers members).
Proof. unfold plainMembers. apply _. Defined.





(** A test environment: strict security level, URLs left as they are. *)
Definition strictEnv : Env := mkEnv "strict" (fun url => url).

(** * Properties *)

(** ** Strings *)

Example trim_ex : JsString.trim "  a b  " = "a b".
Proof. reflexivity. Qed.

Example split_ex : JsString.split_comma "a,,b" = ["a"; EmptyString; "b"].
Proof. reflexivity. Qed.

Example substring_swaps : JsString.substring 1 0 "q" = "q".
Proof. reflexivity. Qed.

Example sanitize_ex :
  sanitize strictEnv "a<br>b<brx/>c <br /> x=1" = "a<br/>b<br/>c &lt;br /&gt; x&equals;1".
Proof. reflexivity. Qed.

(** A text between double quotes loses them; a lone quote stays. *)
Example stripQuotes_ex :
  stripQuotes (String dquote ("hi" +:+ String dquote EmptyString)) = "hi" /\
  stripQuotes (String dquote EmptyString) = String dquote EmptyString.
Proof. split; reflexivity. Qed.

Lemma substring_0_dropLast s :
  String.substring 0 (String.length s - 1) s = dropLast s.
Proof.
  induction s as [|c s IH]; [reflexivity|].
  destruct s as [|d s]; [reflexivity|].
  replace (String.length (String c (String d s)) - 1)
    with (S (String.length (String d s) - 1)) by (cbn [String.length]; lia).
  change (dropLast (String c (String d s))) with (String c (dropLast (String d s))).
  rewrite <- IH. reflexivity.
Qed.

Lemma substring_S n m c s :
  String.substring (S n) m (String c s) = String.substring n m s.
Proof. reflexivity. Qed.

Lemma last_cons_nonempty c d s :
  JsString.last (String c (String d s)) = JsString.last (String d s).
Proof. reflexivity. Qed.

(** The quote stripping of the source is the removal of one enclosing pair;
    on the one-character text made of a quote, [substring(1, 0)] swaps its
    arguments and gives the text back. *)
Lemma stripQuotes_unquote s : stripQuotes s = unquote s.
Proof.
  unfold stripQuotes, unquote.
  destruct s as [|q r]; [reflexivity|].
  cbn [JsString.head].
  destruct (decide (q = dquote)) as [->|Hq].
  2:{ rewrite (bool_decide_eq_false_2 (Some q = Some dquote)) by congruence.
      rewrite (bool_decide_eq_false_2 (q = dquote)) by congruence. reflexivity. }
  rewrite (bool_decide_eq_true_2 (Some dquote = Some dquote)) by reflexivity.
  rewrite (bool_decide_eq_true_2 (dquote = dquote)) by reflexivity. cbn [andb].
  destruct r as [|d r].
  - reflexivity.
  - rewrite last_cons_nonempty.
    destruct (bool_decide (JsString.last (String d r) = Some dquote)); [|reflexivity].
    unfold JsString.substring.
    set (n := String.length (String dquote (String d r))).
    assert (Hn : n = S (S (String.length r))) by reflexivity.
    replace (Nat.min 1 n) with 1 by lia.
    replace (Nat.min (n - 1) n) with (n - 1) by lia.
    replace (Nat.min 1 (n - 1)) with 1 by lia.
    replace (Nat.max 1 (n - 1)) with (n - 1) by lia.
    rewrite substring_S.
    replace (n - 1 - 1) with (String.length (String d r) - 1)
      by (rewrite Hn; cbn [String.length]; lia).
    apply substring_0_dropLast.
Qed.

(** ** Session state: the direction *)

(** C10. A token without any of the characters [<], [^], [>] and [v] is
    stored as it is, and [getDirection] gives that very token back: no test
    of [setDirection] overwrites it, and the call ends without an
    exception. *)
Theorem setDirection_plain_token_verbatim (token : string) (st : State) :
  JsString.contains "<" token = false ->
  JsString.contains "^" token = false ->
  JsString.contains ">" token = false ->
  JsString.contains "v" token = false ->
  outcome (setDirection token) st = Ok tt /\
  direction (exec (setDirection token) st) = Some token /\
  getDirection (exec (setDirection token) st) = Some token.
Proof.
  intros H1 H2 H3 H4.
  unfold outcome, exec, getDirection, setDirection, bind, modify, get, defined, ret.
  cbn. rewrite H1. cbn. rewrite H2. cbn. rewrite H3. cbn. rewrite H4. cbn.
  repeat split.
Qed.

Lemma setDirection_TD_verbatim :
  getDirection (exec (setDirection "TD") initial) = Some "TD".
Proof.
  apply (setDirection_plain_token_verbatim "TD" initial); reflexivity.
Defined.

(** What a call of [setDirection] does to the state, whatever the token. *)
Lemma setDirection_run (token : string) (st : State) :
  setDirection token st = (Ok tt, with_direction (Some (resolveFirstMatch token)) st).
Proof.
  unfold setDirection, resolveFirstMatch, bind, modify, get, defined, ret. cbn.
  destruct (JsString.contains "<" token); cbn; [reflexivity|].
  destruct (JsString.contains "^" token); cbn; [reflexivity|].
  destruct (JsString.contains ">" token); cbn; [reflexivity|].
  destruct (JsString.contains "v" token); cbn; reflexivity.
Qed.

(** C6, as amended. The four tests run one after the other, in the order
    [<], [^], [>], [v], each on the current value of [direction]; a test that
    matches overwrites it with a name that none of the later tests matches,
    so the first matching test decides: RL before BT before LR before TB, and
    the token itself when none matches. So ["-->"] gives LR and ["<-->"]
    gives RL. *)
Theorem setDirection_first_match_wins (token : string) (st : State) :
  outcome (setDirection token) st = Ok tt /\
  getDirection (exec (setDirection token) st) = Some (resolveFirstMatch token) /\
  getDirection (exec (setDirection "-->") st) = Some "LR" /\
  getDirection (exec (setDirection "<-->") st) = Some "RL".
Proof.
  unfold outcome, exec, getDirection. rewrite !setDirection_run. cbn.
  repeat split.
Qed.

(** C6, as worded: were the last matching test to decide, ["<-->"], which
    has both [<] and [>], would give LR; the call gives RL. *)
Lemma setDirection_last_match_fails :
  resolveLastMatch "<-->" = "LR" /\
  getDirection (exec (setDirection "<-->") initial) = Some "RL" /\
  getDirection (exec (setDirection "<-->") initial) <> Some (resolveLastMatch "<-->").
Proof. repeat split. discriminate. Qed.

(** ** The edge list *)

Section EdgeList.

Variable env : Env.

Lemma edgeText_derivedText (type : LinkType) :
  edgeText env (lt_text type) = derivedText env type.
Proof.
  unfold edgeText, derivedText. destruct (lt_text type); [|reflexivity].
  apply stripQuotes_unquote.
Qed.

(** A call of [addLink] that ends normally has appended one edge. *)
Lemma addLink_appends _start _end type linktext st st' :
  addLink env _start _end type linktext st = (Ok tt, st') ->
  exists s e ty,
    _start = Some s /\ _end = Some e /\ type = Some ty /\
    st' = with_edges
            (edges st ++ [mkEdge (normalize s) (normalize e) (lt_type ty)
                            (derivedText env ty) (lt_stroke ty) None None]) st.
Proof.
  unfold addLink, bind, defined, prefixIfDigit, modify, ret, throw.
  destruct _start as [s|]; [|discriminate].
  destruct s as [|c s]; [discriminate|]. cbn [JsString.head].
  destruct _end as [e|]; [|discriminate].
  destruct e as [|d e]; [discriminate|]. cbn [JsString.head].
  destruct type as [ty|]; [|discriminate].
  intros [= <-]. exists (String c s), (String d e), ty.
  rewrite edgeText_derivedText. repeat split.
Qed.

End EdgeList.

(** C3. The [linktext] argument of [addLink] has no effect: two calls that
    differ only in it behave alike, exception or not. A call that ends
    normally appends exactly one edge, whose text comes from the text of the
    type descriptor alone: trimmed, sanitized, and with one layer of
    enclosing double quotes removed (the empty text when the descriptor has
    none). *)
Theorem addLink_text_from_descriptor (env : Env) (_start _end : option string)
    (type : LinkType) (linktext linktext' : option string) (st : State) :
  addLink env _start _end (Some type) linktext st
    = addLink env _start _end (Some type) linktext' st /\
  (outcome (addLink env _start _end (Some type) linktext) st = Ok tt ->
   exists edge,
     edges (exec (addLink env _start _end (Some type) linktext) st) = edges st ++ [edge] /\
     edges (exec (addLink env _start _end (Some type) linktext') st) = edges st ++ [edge] /\
     edge_text edge = derivedText env type).
Proof.
  split; [reflexivity|].
  unfold outcome, exec. intros H.
  destruct (addLink env _start _end (Some type) linktext st) as [o st'] eqn:E.
  cbn in H. subst o.
  assert (E' : addLink env _start _end (Some type) linktext' st = (Ok tt, st')) by exact E.
  rewrite E'.
  apply addLink_appends in E as (s & e & ty & -> & -> & [= <-] & ->).
  eexists. cbn. repeat split.
Qed.

(** The scenario of the specification, with a quoted text in the descriptor
    and another text passed as [linktext]. *)
Lemma addLink_text_from_descriptor_scenario :
  exists edge,
    edges (exec (addLink strictEnv (Some "1node") (Some "node2")
                   (Some (mkLinkType (Some "arrow") (Some "solid") (Some " yes ")))
                   (Some "go")) initial) = [] ++ [edge] /\
    edges (exec (addLink strictEnv (Some "1node") (Some "node2")
                   (Some (mkLinkType (Some "arrow") (Some "solid") (Some " yes ")))
                   None) initial) = [] ++ [edge] /\
    edge_text edge = "yes".
Proof.
  apply (addLink_text_from_descriptor strictEnv (Some "1node") (Some "node2")
           (mkLinkType (Some "arrow") (Some "solid") (Some " yes "))
           (Some "go") None initial).
  reflexivity.
Defined.

(** ** Exceptions of the mutation operations *)

(** C2. The mutation operations do throw. A subgraph without id and title,
    as the grammar sends it for a bare [subgraph ... end] block, makes line
    385 call [match] on [undefined]; a blank entry in the id list of
    [setClass] makes line 197 do the same; [addLink] reads [type.text] on
    line 104, before the test of line 115 that expects [type] to be
    possibly [undefined]. None of the three calls changes the registries it
    is about. *)
Theorem mutation_calls_throw :
  outcome (addSubGraph strictEnv None [["a"]] None) initial = Throw TypeError /\
  outcome (setClass "a,,b" "c") initial = Throw TypeError /\
  outcome (addLink strictEnv (Some "a") (Some "b") None None) initial = Throw TypeError /\
  subGraphs (exec (addSubGraph strictEnv None [["a"]] None) initial) = [] /\
  edges (exec (addLink strictEnv (Some "a") (Some "b") None None) initial) = [].
Proof. vm_compute. repeat split. Qed.

(** ** The subgraph indexer on a cyclic registry *)

(** C1. With A holding B and B holding A, the walk that [indexNodes] starts
    does end, but not silently: the visit that finds the counter above 2000
    returns [undefined] (line 437), and its caller reads [res.result] (line
    455), which throws. By then the table has the 2001 entries 0 to 2000:
    the test of line 436 lets the counter value 2000 through. *)
Theorem indexNodes_cycle_throws_at_cap :
  let st := exec (addSubGraph strictEnv (Some "A") [["B"]] (Some "A") ;;
                  addSubGraph strictEnv (Some "B") [["A"]] (Some "B")) initial in
  outcome indexNodes st = Throw TypeError /\
  getDepthFirstPos 0 (exec indexNodes st) = Some 1%Z /\
  getDepthFirstPos 1 (exec indexNodes st) = Some 0%Z /\
  getDepthFirstPos 2000 (exec indexNodes st) = Some 1%Z /\
  getDepthFirstPos 2001 (exec indexNodes st) = None /\
  size (posCrossRef (exec indexNodes st)) = 2001.
Proof. vm_compute. repeat split. Qed.

(** ** Reset *)

(** C8. [clear] leaves the position table alone: after a subgraph has been
    indexed, [getDepthFirstPos 0] still answers once the registries are
    cleared, although no subgraph is left. *)
Theorem clear_keeps_position_table :
  let st := exec (addSubGraph strictEnv (Some "A") [["a"]] (Some "A") ;;
                  indexNodes ;; clear) initial in
  getSubGraphs st = [] /\
  getVertices st = ∅ /\
  getDepthFirstPos 0 st = Some 0%Z.
Proof. vm_compute. repeat split. Qed.

(** What [clear] does reset, from any state. *)
Lemma clear_run (st : State) :
  clear st =
    (Ok tt,
     mkState ∅ [] None None ∅ [] ∅ ∅ 0 true (direction st) [setupToolTips]
       (secCount st) (posCrossRef st) (styleArrays st)).
Proof. reflexivity. Qed.

Lemma clear_empties_registries (st : State) :
  let st' := exec clear st in
  outcome clear st = Ok tt /\
  getVertices st' = ∅ /\
  getEdges st' = ([], None, None) /\
  getClasses st' = ∅ /\
  getSubGraphs st' = [] /\
  (forall id, getTooltip id st' = None) /\
  (forall pos, getDepthFirstPos pos st' = getDepthFirstPos pos st) /\
  getDirection st' = getDirection st.
Proof.
  unfold outcome, exec. rewrite clear_run. cbn [fst snd].
  unfold getVertices, getEdges, getClasses, getSubGraphs, getTooltip,
    getDepthFirstPos, getDirection. cbn [vertices edges edges_defaultStyle
    edges_defaultInterpolate classes subGraphs tooltips posCrossRef direction].
  split; [reflexivity|]. split; [reflexivity|]. split; [reflexivity|].
  split; [reflexivity|]. split; [reflexivity|].
  split; [intros id; apply lookup_empty|].
  split; reflexivity.
Qed.

(** The latch: true on the first call after [clear], false from then on. *)
Lemma firstGraph_latch (st : State) :
  let st1 := exec clear st in
  outcome firstGraph st1 = Ok true /\
  outcome firstGraph (exec firstGraph st1) = Ok false /\
  outcome firstGraph (exec firstGraph (exec firstGraph st1)) = Ok false /\
  outcome firstGraph initial = Ok true.
Proof.
  unfold outcome, exec. rewrite clear_run. cbn [fst snd].
  repeat split.
Qed.

Lemma firstGraph_false_stays (st : State) :
  firstGraphFlag st = false -> firstGraph st = (Ok false, st).
Proof. intros H. unfold firstGraph, bind, get, ret. now rewrite H. Qed.

(** ** Counterexamples to the claims as worded *)


(** C5, as worded. Duplicates are removed before the ids are normalized, so
    two raw members with one canonical form both stay. *)
Lemma addSubGraph_nodes_duplicate :
  let st := exec (addSubGraph strictEnv (Some "g") [["1a"; "s1a"]] (Some "t")) initial in
  sg_nodes <$> subGraphs st !! 0%nat = Some ["s1a"; "s1a"] /\
  ~ (forall nodes, sg_nodes <$> subGraphs st !! 0%nat = Some nodes -> NoDup nodes).
Proof.
  vm_compute. split; [reflexivity|]. intros H.
  specialize (H _ eq_refl). apply NoDup_cons_1_1 in H. apply H. left.
Qed.


(** C9, as worded. For the sentinel alone, the fallback style is the list as
    given, without any fill declaration. *)
Lemma updateLink_default_without_fill :
  let st := exec (updateLink [Default] ["stroke:red"]) initial in
  defaultStyleOf st = Some ["stroke:red"] /\
  isSubstringInArray "fill" ["stroke:red"] = (-1)%Z.
Proof. vm_compute. repeat split. Qed.

(** ** The subgraph registry: member lists *)

Lemma dedupFirst_subset (l : list string) x : x ∈ dedupFirst l -> x ∈ l.
Proof.
  induction l as [|y l IH]; cbn; [done|].
  rewrite !elem_of_cons, list_elem_of_filter. intros [->|[_ H]]; auto.
Qed.

Lemma dedupFirst_NoDup (l : list string) : NoDup (dedupFirst l).
Proof.
  induction l as [|y l IH]; cbn; [constructor|].
  constructor.
  - rewrite list_elem_of_filter. intros [H _]. now apply H.
  - now apply NoDup_filter.
Qed.

Lemma filter_filter_ext {A} (P Q R : A -> Prop)
    `{!forall x, Decision (P x)} `{!forall x, Decision (Q x)} `{!forall x, Decision (R x)}
    (l : list A) :
  (forall x, P x /\ Q x <-> R x) -> filter P (filter Q l) = filter R l.
Proof.
  intros Hext. induction l as [|x l IH]; [reflexivity|].
  rewrite (filter_cons Q), (filter_cons R).
  destruct (decide (Q x)) as [q|q].
  - rewrite (filter_cons P). destruct (decide (P x)) as [p|p], (decide (R x)) as [r|r].
    + now rewrite IH.
    + exfalso. apply r, Hext. auto.
    + exfalso. apply p, Hext, r.
    + exact IH.
  - destruct (decide (R x)) as [r|r]; [|exact IH].
    exfalso. apply q, Hext, r.
Qed.

(** Away from its two special members the filter of lines 392 to 402
    removes the blanks and keeps the first occurrence of everything else
    that was not seen before. *)
Lemma uniq_filter_dedupFirst (seen : gset string) (a : list string) :
  "hasOwnProperty" ∉ seen -> plainMembers a ->
  uniq_filter seen a
    = Some (filter (fun y => y ∉ seen) (dedupFirst (filter nonBlank a))).
Proof.
  revert seen. induction a as [|item a IH]; intros seen Hseen [Hh Hp]; [reflexivity|].
  apply not_elem_of_cons in Hh as [Hh1 Hh], Hp as [Hp1 Hp].
  cbn [uniq_filter]. rewrite (filter_cons nonBlank).
  destruct (String.eqb_spec (JsString.trim item) EmptyString) as [Hb|Hb].
  - destruct (decide (nonBlank item)) as [n|_]; [now destruct n|]. now apply IH.
  - destruct (decide (nonBlank item)) as [_|n]; [|now destruct n].
    rewrite (bool_decide_eq_false_2 ("hasOwnProperty" ∈ seen)) by done.
    cbn [dedupFirst]. rewrite filter_cons.
    destruct (decide (item ∈ seen)) as [Hin|Hin].
    + rewrite bool_decide_eq_true_2 by done.
      destruct (decide (item ∉ seen)) as [?|_]; [done|].
      rewrite IH by done. f_equal. symmetry. apply filter_filter_ext.
      intros x. split; [tauto|]. intros Hx. split; [done|]. now intros ->.
    + rewrite bool_decide_eq_false_2 by done.
      destruct (decide (item ∉ seen)) as [_|?]; [|done].
      unfold record_seen.
      destruct (String.eqb_spec item "__proto__") as [->|_]; [done|].
      rewrite IH; [|rewrite not_elem_of_union, not_elem_of_singleton; done|done].
      cbn [fmap option_fmap option_map]. do 2 f_equal. symmetry.
      apply filter_filter_ext.
      intros x. rewrite not_elem_of_union, not_elem_of_singleton. tauto.
Qed.

Lemma uniq_dedupFirst (a : list string) :
  plainMembers a -> uniq a = Some (dedupFirst (filter nonBlank a)).
Proof.
  intros Ha. unfold uniq. rewrite uniq_filter_dedupFirst; [|apply not_elem_of_empty|done].
  f_equal.
  induction (dedupFirst (filter nonBlank a)) as [|x l IH]; [reflexivity|].
  rewrite filter_cons. destruct (decide (x ∉ (∅ : gset string))) as [_|H].
  - now rewrite IH.
  - exfalso. apply H, not_elem_of_empty.
Qed.

(** Whatever the members, a list that the filter returns has no blank. *)
Lemma uniq_filter_nonBlank (seen : gset string) (a u : list string) :
  uniq_filter seen a = Some u -> Forall nonBlank u.
Proof.
  revert seen u. induction a as [|item a IH]; intros seen u; cbn [uniq_filter].
  - intros [= <-]. constructor.
  - destruct (String.eqb_spec (JsString.trim item) EmptyString) as [Hb|Hb]; [apply IH|].
    destruct (bool_decide ("hasOwnProperty" ∈ seen)); [discriminate|].
    destruct (bool_decide (item ∈ seen)); [apply IH|].
    destruct (uniq_filter (record_seen item seen) a) as [u'|] eqn:Hu; [|discriminate].
    intros [= <-]. constructor; [exact Hb | now apply (IH _ _ Hu)].
Qed.

Lemma uniq_nonBlank (a u : list string) : uniq a = Some u -> Forall nonBlank u.
Proof. apply uniq_filter_nonBlank. Qed.

(** The two special members, as the source treats them. *)
Example uniq_after_hasOwnProperty : uniq ["hasOwnProperty"; "b"] = None.
Proof. reflexivity. Qed.

Example uniq_hasOwnProperty_last : uniq ["b"; "hasOwnProperty"; " "] = Some ["b"; "hasOwnProperty"].
Proof. reflexivity. Qed.

Example uniq_keeps_every_proto :
  uniq ["__proto__"; "a"; "__proto__"; "a"] = Some ["__proto__"; "a"; "__proto__"].
Proof. reflexivity. Qed.

Lemma nonBlank_nonempty x : nonBlank x -> x <> EmptyString.
Proof. intros H ->. now apply H. Qed.

(** On a text that is not empty the inline test is [normalize]. *)
Lemma prefixIfDigit_normalize x st :
  x <> EmptyString -> prefixIfDigit x st = (Ok (normalize x), st).
Proof. destruct x; [done|reflexivity]. Qed.

Lemma prefixEach_normalize (l : list string) st :
  Forall (fun x => x <> EmptyString) l -> prefixEach l st = (Ok (normalize <$> l), st).
Proof.
  induction 1 as [|x l Hx _ IH]; [reflexivity|].
  cbn [prefixEach]. unfold bind. rewrite prefixIfDigit_normalize by done.
  rewrite IH. reflexivity.
Qed.

Lemma drop_space_end_keeps c s :
  JsString.is_space c = false -> JsString.drop_space_end (String c s) <> EmptyString.
Proof.
  intros H. cbn [JsString.drop_space_end]. rewrite H.
  destruct (JsString.drop_space_end s); discriminate.
Qed.

Lemma normalize_nonBlank x : nonBlank x -> nonBlank (normalize x).
Proof.
  unfold nonBlank, normalize. destruct x as [|c x]; [done|].
  destruct (JsString.is_digit c); [|done]. intros _.
  change ("s" +:+ String c x) with (String "s" (String c x)).
  unfold JsString.trim.
  change (JsString.drop_space (String "s" (String c x))) with (String "s" (String c x)).
  now apply drop_space_end_keeps.
Qed.

Lemma orElse_nonempty x d : d <> EmptyString -> orElse x d <> EmptyString.
Proof.
  intros Hd. unfold orElse. destruct x as [s|]; [|done].
  destruct (String.eqb_spec s EmptyString); done.
Qed.

(** A call of [addSubGraph] with an id or a title, on members that the
    filter accepts: it ends normally, gives the final id back, and has
    appended one record. *)
Lemma addSubGraph_run_uniq env _id list _title st nodes :
  _id <> None \/ _title <> None ->
  uniq (concat list) = Some nodes ->
  addSubGraph env _id list _title st =
    (Ok (finalId _id _title (subCount st)),
     with_subGraphLookup
       (<[finalId _id _title (subCount st) := length (subGraphs st)]> (subGraphLookup st))
       (with_subGraphs
          (subGraphs st ++
             [mkSubGraph (finalId _id _title (subCount st)) (normalize <$> nodes)
                (JsString.trim (sanitize env (orElse _title EmptyString))) []])
          (with_subCount (subCount st + 1) st))).
Proof.
  intros Hdef Hu. unfold addSubGraph, finalId. rewrite Hu.
  assert (Hpre : prefixEach nodes st = (Ok (normalize <$> nodes), st)).
  { apply prefixEach_normalize. eapply Forall_impl; [apply (uniq_nonBlank _ _ Hu)|].
    apply nonBlank_nonempty. }
  assert (Hid : forall o, prefixIfDigit (orElse o ("subGraph" +:+ decimal (subCount st))) st
                = (Ok (normalize (orElse o ("subGraph" +:+ decimal (subCount st)))), st)).
  { intros o. apply prefixIfDigit_normalize, orElse_nonempty. discriminate. }
  unfold bind at 1.
  destruct (decide (_id = _title)) as [Heq|Hne].
  - rewrite bool_decide_eq_true_2 by done.
    destruct _title as [t|]; [|destruct Hdef as [H|H]; congruence].
    cbn [defined default andb]. unfold bind at 1, ret at 1. unfold ret at 1.
    unfold bind at 1, ret at 1.
    unfold bind at 1. rewrite Hpre. unfold bind at 1, get at 1.
    unfold bind at 1. rewrite Hid. reflexivity.
  - rewrite bool_decide_eq_false_2 by done. cbn [andb]. unfold ret at 1.
    unfold bind at 1, ret at 1.
    unfold bind at 1. rewrite Hpre. unfold bind at 1, get at 1.
    unfold bind at 1. rewrite Hid. reflexivity.
Qed.

Lemma addSubGraph_run env _id list _title st :
  _id <> None \/ _title <> None ->
  plainMembers (concat list) ->
  addSubGraph env _id list _title st =
    (Ok (finalId _id _title (subCount st)),
     with_subGraphLookup
       (<[finalId _id _title (subCount st) := length (subGraphs st)]> (subGraphLookup st))
       (with_subGraphs
          (subGraphs st ++
             [mkSubGraph (finalId _id _title (subCount st)) (memberList list)
                (JsString.trim (sanitize env (orElse _title EmptyString))) []])
          (with_subCount (subCount st + 1) st))).
Proof.
  intros Hdef Hplain. unfold memberList.
  now apply addSubGraph_run_uniq, uniq_dedupFirst.
Qed.

(** When the filter throws, or the title is read while undefined, the call
    has changed nothing. *)
Lemma addSubGraph_stops env _id list _title st :
  (_id = None /\ _title = None) \/ uniq (concat list) = None ->
  addSubGraph env _id list _title st = (Throw TypeError, st).
Proof.
  intros Hstop. unfold addSubGraph.
  destruct (decide (_id = None /\ _title = None)) as [[-> ->]|Hdef]; [reflexivity|].
  destruct Hstop as [?|Hu]; [done|]. rewrite Hu.
  unfold bind at 1.
  destruct (bool_decide (_id = _title)) eqn:Heq.
  - apply bool_decide_eq_true_1 in Heq. subst _id.
    destruct _title as [t|]; [|exfalso; now apply Hdef]. reflexivity.
  - reflexivity.
Qed.

(** C5, as amended. A call of [addSubGraph] that has an id or a title, on
    members among which there is neither ['hasOwnProperty'] nor
    ['__proto__'], ends normally and stores as member list the flattening of
    the lists, without the blank entries, without repetitions of a raw entry
    (the first occurrence stays), each entry left then normalized. No stored
    member is blank, and the raw entries that were kept are pairwise
    different; two of them with one normal form are both stored. *)
Theorem addSubGraph_member_list (env : Env) (_id : option string)
    (list : list (list string)) (_title : option string) (st : State) :
  _id <> None \/ _title <> None ->
  plainMembers (concat list) ->
  exists id g,
    outcome (addSubGraph env _id list _title) st = Ok id /\
    subGraphs (exec (addSubGraph env _id list _title) st) = subGraphs st ++ [g] /\
    sg_id g = id /\
    sg_nodes g = normalize <$> dedupFirst (filter nonBlank (concat list)) /\
    NoDup (dedupFirst (filter nonBlank (concat list))) /\
    Forall nonBlank (sg_nodes g).
Proof.
  intros Hdef Hplain. unfold outcome, exec. rewrite addSubGraph_run by done.
  eexists _, _. cbn [fst snd subGraphs with_subGraphLookup with_subGraphs sg_id sg_nodes].
  split; [reflexivity|]. split; [reflexivity|]. split; [reflexivity|].
  split; [reflexivity|]. split; [apply dedupFirst_NoDup|].
  unfold memberList. apply Forall_fmap.
  eapply Forall_impl; [apply (uniq_nonBlank (concat list)), uniq_dedupFirst, Hplain|].
  intros x. apply normalize_nonBlank.
Qed.

(** The example of the specification, with a blank entry added. *)
Lemma addSubGraph_member_list_example :
  exists id g,
    outcome (addSubGraph strictEnv (Some "g") [["a"; "b"]; [" "; "a"; "c"]] None) initial = Ok id /\
    subGraphs (exec (addSubGraph strictEnv (Some "g") [["a"; "b"]; [" "; "a"; "c"]] None) initial)
      = [] ++ [g] /\
    sg_id g = id /\
    sg_nodes g = normalize <$> dedupFirst (filter nonBlank (concat [["a"; "b"]; [" "; "a"; "c"]])) /\
    NoDup (dedupFirst (filter nonBlank (concat [["a"; "b"]; [" "; "a"; "c"]]))) /\
    Forall nonBlank (sg_nodes g).
Proof.
  apply (addSubGraph_member_list strictEnv (Some "g") [["a"; "b"]; [" "; "a"; "c"]] None initial).
  - left. discriminate.
  - now apply (bool_decide_unpack _).
Defined.

(** With the two members that the filter treats apart the stored list is
    another one: after ['hasOwnProperty'] the call throws and stores
    nothing, and every ['__proto__'] is stored. *)
Example addSubGraph_special_members :
  addSubGraph strictEnv (Some "g") [["hasOwnProperty"; "b"]] (Some "t") initial
    = (Throw TypeError, initial) /\
  sg_nodes <$> subGraphs (exec (addSubGraph strictEnv (Some "g")
                                  [["__proto__"; "a"; "__proto__"]] (Some "t")) initial) !! 0%nat
    = Some ["__proto__"; "a"; "__proto__"].
Proof. split; reflexivity. Qed.

Example memberList_example :
  memberList [["a"; "b"]; [" "; "a"; "c"]; ["1x"]] = ["a"; "b"; "c"; "s1x"].
Proof. vm_compute. reflexivity. Qed.

(** ** Classes on vertices and subgraphs *)

(** What the callback of [setClass] does for one entry of the id list. *)
Lemma setClass_each_run (className _id : string) (st : State) :
  _id <> EmptyString ->
  setClass_each className _id st =
    (Ok tt,
     let id := normalize _id in
     let st1 := match vertices st !! id with
                | Some v => with_vertices (<[id := push_vertex_class className v]> (vertices st)) st
                | None => st
                end in
     match subGraphLookup st !! id with
     | Some r => with_subGraphs (alter (push_sg_class className) r (subGraphs st)) st1
     | None => st1
     end).
Proof.
  intros Hne. unfold setClass_each, bind at 1.
  rewrite prefixIfDigit_normalize by done. cbn zeta.
  unfold bind, get, modify, ret.
  destruct (vertices st !! normalize _id) as [v|];
    cbn [subGraphLookup with_vertices subGraphs];
    destruct (subGraphLookup st !! normalize _id); reflexivity.
Qed.












Example setClass_twice_value :
  let st := exec (addVertex strictEnv (Some "A") None None Undefined Undefined ;;
                  addSubGraph strictEnv (Some "A") [["a"]] (Some "A") ;;
                  setClass "A,b,A" "c") initial in
  vertex_classes <$> vertices st !! "A" = Some ["c"; "c"] /\
  sg_classes <$> subGraphs st !! 0%nat = Some ["c"; "c"] /\
  vertices st !! "b" = None.
Proof. vm_compute. repeat split. Qed.

(** ** The subgraph registry: ids *)

Section Preservation.

Variable P : State -> Prop.

Lemma preserves_ret {A} (a : A) : preserves P (ret a).
Proof. intros st H. exact H. Qed.

Lemma preserves_throw {A} e : preserves P (@throw A e).
Proof. intros st H. exact H. Qed.

Lemma preserves_get : preserves P get.
Proof. intros st H. exact H. Qed.

Lemma preserves_defined {A} (x : option A) : preserves P (defined x).
Proof. destruct x; [apply preserves_ret | apply preserves_throw]. Qed.

Lemma preserves_prefixIfDigit x : preserves P (prefixIfDigit x).
Proof.
  unfold prefixIfDigit. destruct (JsString.head x);
    [apply preserves_ret | apply preserves_throw].
Qed.

Lemma preserves_bind {A B} (c : JS A) (k : A -> JS B) :
  preserves P c -> (forall a, preserves P (k a)) -> preserves P (bind c k).
Proof.
  intros Hc Hk st H. unfold bind. specialize (Hc st H).
  destruct (c st) as [[a|e|] st']; cbn in Hc |- *; [now apply Hk | exact Hc | exact Hc].
Qed.

Lemma preserves_forEach {A} (f : A -> JS unit) (l : list A) :
  (forall x, preserves P (f x)) -> preserves P (forEach f l).
Proof.
  intros Hf. induction l as [|x l IH]; cbn [forEach].
  - apply preserves_ret.
  - apply preserves_bind; [apply Hf | intros _; exact IH].
Qed.

Lemma preserves_modify (f : State -> State) :
  (forall st, P st -> P (f st)) -> preserves P (modify f).
Proof. intros Hf st H. now apply Hf. Qed.

Lemma preserves_prefixEach l : preserves P (prefixEach l).
Proof.
  induction l as [|x l IH]; cbn [prefixEach]; [apply preserves_ret|].
  apply preserves_bind; [apply preserves_prefixIfDigit|]. intros x'.
  apply preserves_bind; [exact IH|]. intros r. apply preserves_ret.
Qed.

Lemma preserves_out_of_fuel {A} : preserves P (fun st => (@OutOfFuel A, st)).
Proof. intros st H. exact H. Qed.

End Preservation.

Lemma lookupConsistent_frame (f : State -> State) :
  framesSubGraphs f -> forall st, lookupConsistent st -> lookupConsistent (f st).
Proof.
  intros Hf st. destruct (Hf st) as (H1 & H2 & H3).
  unfold lookupConsistent. now rewrite H1, H2, H3.
Qed.

Lemma preserves_frame (f : State -> State) :
  framesSubGraphs f -> preserves lookupConsistent (modify f).
Proof. intros Hf. apply preserves_modify, lookupConsistent_frame, Hf. Qed.

(** One step in the proof that an operation keeps [lookupConsistent]: the
    shape of the computation decides. *)
Ltac preserves_step :=
  lazymatch goal with
  | |- preserves _ (bind _ _) => apply preserves_bind; [|intros ?]
  | |- preserves _ (ret _) => apply preserves_ret
  | |- preserves _ (throw _) => apply preserves_throw
  | |- preserves _ get => apply preserves_get
  | |- preserves _ (defined _) => apply preserves_defined
  | |- preserves _ (prefixIfDigit _) => apply preserves_prefixIfDigit
  | |- preserves _ (prefixEach _) => apply preserves_prefixEach
  | |- preserves _ (forEach _ _) => apply preserves_forEach; intros ?
  | |- preserves _ (modify _) =>
      apply preserves_frame; intros ?; repeat split; reflexivity
  | |- preserves _ (match ?x with _ => _ end) => destruct x
  end.

Ltac preserves_frame_tac := repeat preserves_step.

Lemma updateVertex_preserves id f : preserves lookupConsistent (updateVertex id f).
Proof. unfold updateVertex. preserves_frame_tac. Qed.

Lemma updateEdge_preserves pos f : preserves lookupConsistent (updateEdge pos f).
Proof. unfold updateEdge. preserves_frame_tac. Qed.

Lemma addVertex_preserves env _id text type style classes :
  preserves lookupConsistent (addVertex env _id text type style classes).
Proof.
  unfold addVertex. preserves_frame_tac; apply updateVertex_preserves.
Qed.

Lemma addLink_preserves env _start _end type linktext :
  preserves lookupConsistent (addLink env _start _end type linktext).
Proof. unfold addLink. preserves_frame_tac. Qed.

Lemma updateLinkInterpolate_preserves positions interp :
  preserves lookupConsistent (updateLinkInterpolate positions interp).
Proof.
  unfold updateLinkInterpolate. preserves_frame_tac. apply updateEdge_preserves.
Qed.

Lemma updateLink_preserves positions style :
  preserves lookupConsistent (updateLink positions style).
Proof.
  unfold updateLink, updateLink_ref, updateLink_each, allocStyle, pushStyle.
  preserves_frame_tac; apply updateEdge_preserves.
Qed.

Lemma addClass_preserves id style : preserves lookupConsistent (addClass id style).
Proof. unfold addClass. preserves_frame_tac. Qed.

Lemma setDirection_preserves dir : preserves lookupConsistent (setDirection dir).
Proof. unfold setDirection. preserves_frame_tac. Qed.

Lemma setTooltip_preserves env ids tooltip :
  preserves lookupConsistent (setTooltip env ids tooltip).
Proof. unfold setTooltip. preserves_frame_tac. Qed.

Lemma setClickFun_preserves env _id functionName :
  preserves lookupConsistent (setClickFun env _id functionName).
Proof. unfold setClickFun. preserves_frame_tac. Qed.

Lemma clear_preserves : preserves lookupConsistent clear.
Proof.
  intros st _. rewrite clear_run. cbn [snd].
  unfold lookupConsistent. cbn [subGraphs subGraphLookup subCount length].
  split; [reflexivity|]. split.
  - intros id r H. now rewrite lookup_empty in H.
  - intros g H. now apply elem_of_nil in H.
Qed.

Lemma firstGraph_preserves : preserves lookupConsistent firstGraph.
Proof. unfold firstGraph. preserves_frame_tac. Qed.

Lemma alter_class_lookup_back className i (l : list SubGraph) j g' :
  alter (push_sg_class className) i l !! j = Some g' ->
  exists g, l !! j = Some g /\ sg_id g = sg_id g'.
Proof.
  rewrite list_lookup_alter. destruct (decide (i = j)) as [->|_].
  - destruct (l !! j) as [g|]; [|discriminate]. intros [= <-]. now exists g.
  - intros H. now exists g'.
Qed.

Lemma alter_class_lookup_forth className i (l : list SubGraph) j g :
  l !! j = Some g ->
  exists g', alter (push_sg_class className) i l !! j = Some g' /\ sg_id g' = sg_id g.
Proof.
  intros H. rewrite list_lookup_alter. destruct (decide (i = j)) as [->|_].
  - rewrite H. now eexists.
  - now exists g.
Qed.

Lemma lookupConsistent_alter className r st :
  lookupConsistent st ->
  lookupConsistent (with_subGraphs (alter (push_sg_class className) r (subGraphs st)) st).
Proof.
  intros (Hlen & Hlast & Hdom). unfold lookupConsistent.
  cbn [subGraphs subGraphLookup subCount with_subGraphs].
  split; [now rewrite length_alter|]. split.
  - intros id k Hk. destruct (Hlast id k Hk) as ((g & Hg & Hid) & Hmax). split.
    + destruct (alter_class_lookup_forth className r _ _ _ Hg) as (g' & Hg' & Hid').
      exists g'. split; [done | congruence].
    + intros j g' Hj Hjid.
      destruct (alter_class_lookup_back _ _ _ _ _ Hj) as (g0 & Hg0 & Hid0).
      apply (Hmax j g0 Hg0). congruence.
  - intros g' Hin. apply list_elem_of_lookup in Hin as [j Hj].
    destruct (alter_class_lookup_back _ _ _ _ _ Hj) as (g0 & Hg0 & Hid0).
    rewrite <- Hid0. apply Hdom. apply list_elem_of_lookup. now exists j.
Qed.

Lemma setClass_each_preserves className _id :
  preserves lookupConsistent (setClass_each className _id).
Proof.
  intros st H. destruct (decide (_id = EmptyString)) as [->|Hne]; [exact H|].
  rewrite setClass_each_run by done. cbn [snd]. cbn zeta.
  destruct (subGraphLookup st !! normalize _id) as [r|].
  - apply (lookupConsistent_alter className r) in H.
    destruct (vertices st !! normalize _id); exact H.
  - destruct (vertices st !! normalize _id); exact H.
Qed.

Lemma setClass_preserves ids className :
  preserves lookupConsistent (setClass ids className).
Proof.
  unfold setClass. apply preserves_forEach. intros _id.
  apply setClass_each_preserves.
Qed.

Lemma setLink_preserves env ids linkStr tooltip :
  preserves lookupConsistent (setLink env ids linkStr tooltip).
Proof.
  unfold setLink. preserves_frame_tac.
  - apply setTooltip_preserves.
  - apply setClass_preserves.
Qed.

Lemma setClickEvent_preserves env ids functionName tooltip :
  preserves lookupConsistent (setClickEvent env ids functionName tooltip).
Proof.
  unfold setClickEvent. preserves_frame_tac.
  - apply setClickFun_preserves.
  - apply setTooltip_preserves.
  - apply setClass_preserves.
Qed.

Lemma indexLoop_preserves recurse nodes posCount :
  (forall pos, preserves lookupConsistent (recurse pos)) ->
  preserves lookupConsistent (indexLoop recurse nodes posCount).
Proof.
  intros Hrec. revert posCount.
  induction nodes as [|n nodes IH]; intros posCount; cbn [indexLoop].
  - apply preserves_ret.
  - preserves_frame_tac; try apply Hrec; apply IH.
Qed.

Lemma indexNodes2_preserves fuel id pos :
  preserves lookupConsistent (indexNodes2 fuel id pos).
Proof.
  revert pos. induction fuel as [|fuel IH]; intros pos; cbn [indexNodes2].
  - apply preserves_out_of_fuel.
  - preserves_frame_tac. now apply indexLoop_preserves.
Qed.

Lemma indexNodes_preserves : preserves lookupConsistent indexNodes.
Proof.
  unfold indexNodes, indexNodes_fuel. preserves_frame_tac.
  apply indexNodes2_preserves.
Qed.

(** Appending a record and pointing the lookup at it keeps the two views in
    agreement, also when the id was registered before. *)
Lemma lookupConsistent_push id nodes title st :
  lookupConsistent st ->
  lookupConsistent
    (with_subGraphLookup (<[id := length (subGraphs st)]> (subGraphLookup st))
       (with_subGraphs (subGraphs st ++ [mkSubGraph id nodes title []])
          (with_subCount (subCount st + 1) st))).
Proof.
  intros (Hlen & Hlast & Hdom). unfold lookupConsistent.
  cbn [subGraphs subGraphLookup subCount with_subGraphs with_subGraphLookup with_subCount].
  split; [rewrite length_app; cbn; lia|]. split.
  - intros id' r. destruct (decide (id = id')) as [<-|Hne].
    + rewrite lookup_insert_eq. intros [= <-]. split.
      * exists (mkSubGraph id nodes title []). split; [|reflexivity].
        rewrite lookup_app_r by lia. now rewrite Nat.sub_diag.
      * intros j g' Hj _. apply lookup_lt_Some in Hj.
        rewrite length_app in Hj. cbn in Hj. lia.
    + rewrite lookup_insert_ne by done. intros Hr.
      destruct (Hlast id' r Hr) as ((g & Hg & Hid) & Hmax). split.
      * exists g. split; [|done]. rewrite lookup_app_l; [done|].
        now apply lookup_lt_Some in Hg.
      * intros j g' Hj Hjid.
        destruct (decide (j < length (subGraphs st))) as [Hlt|Hge].
        -- rewrite lookup_app_l in Hj by done. now apply (Hmax j g').
        -- rewrite lookup_app_r in Hj by lia.
           destruct (j - length (subGraphs st)) as [|k]; cbn in Hj; [|discriminate].
           injection Hj as <-. cbn in Hjid. congruence.
  - intros g Hin. apply elem_of_app in Hin as [Hin|Hin].
    + destruct (decide (id = sg_id g)) as [->|Hne].
      * rewrite lookup_insert_eq. now eexists.
      * rewrite lookup_insert_ne by done. now apply Hdom.
    + apply list_elem_of_singleton in Hin as ->. cbn [sg_id].
      rewrite lookup_insert_eq. now eexists.
Qed.

Lemma addSubGraph_preserves env _id list _title :
  preserves lookupConsistent (addSubGraph env _id list _title).
Proof.
  intros st H.
  destruct (decide (_id = None /\ _title = None)) as [[-> ->]|Hdef].
  - exact H.
  - destruct (uniq (concat list)) as [nodes|] eqn:Hu.
    + rewrite (addSubGraph_run_uniq _ _ _ _ _ nodes); [|.. | exact Hu].
      * cbn [snd]. now apply lookupConsistent_push.
      * destruct _id as [i|]; [left; discriminate|].
        destruct _title as [t|]; [right; discriminate|].
        exfalso. now apply Hdef.
    + rewrite addSubGraph_stops by now right. exact H.
Qed.

Lemma call_preserves env c : preserves lookupConsistent (call env c).
Proof.
  destruct c; cbn [call].
  - apply addVertex_preserves.
  - apply addLink_preserves.
  - apply updateLinkInterpolate_preserves.
  - apply updateLink_preserves.
  - apply addClass_preserves.
  - apply setDirection_preserves.
  - apply setClass_preserves.
  - apply setLink_preserves.
  - apply setClickEvent_preserves.
  - apply preserves_bind; [apply addSubGraph_preserves | intros ?; apply preserves_ret].
  - apply clear_preserves.
  - apply indexNodes_preserves.
  - apply preserves_bind; [apply firstGraph_preserves | intros ?; apply preserves_ret].
Qed.

Lemma initial_lookupConsistent : lookupConsistent initial.
Proof.
  unfold lookupConsistent, initial. cbn [subGraphs subGraphLookup subCount length].
  split; [reflexivity|]. split.
  - intros id r H. now rewrite lookup_empty in H.
  - intros g H. now apply elem_of_nil in H.
Qed.

Lemma run_preserves env calls st :
  lookupConsistent st -> lookupConsistent (run env calls st).
Proof.
  revert st. induction calls as [|c calls IH]; intros st H; [exact H|].
  cbn [run foldl]. apply IH. now apply call_preserves.
Qed.


(** ** Edge styles *)

Lemma isSubstringInArray_lower str arr : (-1 <= isSubstringInArray str arr)%Z.
Proof.
  induction arr as [|x arr IH]; cbn [isSubstringInArray]; [lia|].
  destruct (JsString.includes str x); [lia|].
  destruct (Z.eqb_spec (isSubstringInArray str arr) (-1)); lia.
Qed.

Lemma isSubstringInArray_snoc str arr x :
  JsString.includes str x = true -> isSubstringInArray str (arr ++ [x]) <> (-1)%Z.
Proof.
  intros Hx. induction arr as [|y arr IH]; cbn [isSubstringInArray app].
  - rewrite Hx. discriminate.
  - destruct (JsString.includes str y); [discriminate|].
    destruct (Z.eqb_spec (isSubstringInArray str (arr ++ [x])) (-1)); [done|].
    pose proof (isSubstringInArray_lower str (arr ++ [x])). lia.
Qed.

(** The applied list has a fill declaration. *)
Lemma withFill_has_fill style : isSubstringInArray "fill" (withFill style) <> (-1)%Z.
Proof.
  unfold withFill.
  destruct (Z.eqb_spec (isSubstringInArray "fill" style) (-1)) as [H|H]; [|exact H].
  now apply isSubstringInArray_snoc.
Qed.

Lemma withFill_idempotent style : withFill (withFill style) = withFill style.
Proof.
  unfold withFill at 1.
  destruct (Z.eqb_spec (isSubstringInArray "fill" (withFill style)) (-1)) as [H|H];
    [|reflexivity].
  now apply withFill_has_fill in H.
Qed.

Lemma edgeAt_in_range i st :
  inRange (length (edges st)) (At i) -> exists e, edgeAt i st = Some e.
Proof.
  cbn [inRange]. intros [H0 H1]. unfold edgeAt.
  destruct (Z.ltb_spec i 0); [lia|].
  apply lookup_lt_is_Some_2. lia.
Qed.

Lemma updateEdge_run i f st e :
  edgeAt i st = Some e ->
  updateEdge i f st = (Ok tt, with_edges (<[Z.to_nat i := f e]> (edges st)) st).
Proof.
  intros He. unfold updateEdge, bind at 1, get at 1, bind at 1.
  rewrite He. reflexivity.
Qed.

(** One integer entry: the shared list gets its fill declaration, and the
    edge refers to the shared list. *)
Lemma updateLink_each_At r i st cur :
  styleArrays st !! r = Some cur ->
  inRange (length (edges st)) (At i) ->
  exists e st',
    edgeAt i st = Some e /\
    updateLink_each r (At i) st = (Ok tt, st') /\
    styleArrays st' !! r = Some (withFill cur) /\
    length (styleArrays st') = length (styleArrays st) /\
    edges st' = <[Z.to_nat i := set_edge_style (Some r) e]> (edges st) /\
    edges_defaultStyle st' = edges_defaultStyle st.
Proof.
  intros Hr Hin. destruct (edgeAt_in_range i st Hin) as [e He].
  assert (Hs : styleOf r st = cur) by (unfold styleOf; now rewrite Hr).
  exists e. unfold updateLink_each, bind at 1, get at 1.
  rewrite Hs. unfold withFill.
  destruct (isSubstringInArray "fill" cur =? -1)%Z.
  - eexists. split; [exact He|]. split.
    + unfold bind at 1, pushStyle, modify at 1.
      apply updateEdge_run. exact He.
    + cbn [styleArrays edges edges_defaultStyle with_edges with_styleArrays].
      rewrite list_lookup_alter_eq, Hr, length_alter. repeat split.
  - eexists. split; [exact He|]. split.
    + unfold bind at 1, ret at 1. apply updateEdge_run. exact He.
    + cbn [styleArrays edges edges_defaultStyle with_edges]. repeat split. exact Hr.
Qed.

(** The whole loop, from a state in which [r] refers to the list [cur]. *)
Lemma updateLink_ref_run positions r :
  forall st cur,
    styleArrays st !! r = Some cur ->
    Forall (inRange (length (edges st))) positions ->
    exists st',
      updateLink_ref positions r st = (Ok tt, st') /\
      styleArrays st' !! r = Some (if hasIndex positions then withFill cur else cur) /\
      length (edges st') = length (edges st) /\
      (forall i, At i ∈ positions ->
         exists e, edgeAt i st' = Some e /\ edge_style e = Some r) /\
      (forall i e, edgeAt i st = Some e -> edge_style e = Some r ->
         exists e', edgeAt i st' = Some e' /\ edge_style e' = Some r) /\
      (Default ∈ positions -> edges_defaultStyle st' = Some r) /\
      (edges_defaultStyle st = Some r -> edges_defaultStyle st' = Some r).
Proof.
  unfold updateLink_ref.
  induction positions as [|p positions IH]; intros st cur Hr Hin.
  - exists st. cbn [forEach hasIndex existsb]. repeat split; try done.
    + intros i H. now apply elem_of_nil in H.
    + intros i e He Hs. now exists e.
    + intros H. now apply elem_of_nil in H.
  - apply Forall_cons in Hin as [Hp Hin]. cbn [forEach]. unfold bind at 1.
    destruct p as [|i].
    + (* the sentinel *)
      cbn [updateLink_each modify].
      destruct (IH (with_defaultStyle (Some r) st) cur Hr Hin)
        as (st' & Hrun & Hsty & Hlen & Hidx & Hkeep & _ & Hdef).
      exists st'. split; [exact Hrun|]. split; [exact Hsty|]. split; [exact Hlen|].
      split; [|split; [exact Hkeep|split]].
      * intros i Hi. apply elem_of_cons in Hi as [Hi|Hi]; [discriminate|]. now apply Hidx.
      * intros _. now apply Hdef.
      * intros _. now apply Hdef.
    + (* an index *)
      destruct (updateLink_each_At r i st cur Hr Hp)
        as (e & st1 & He & Hstep & Hsty1 & Hlen1 & Hedges1 & Hdef1).
      rewrite Hstep.
      assert (HlenE : length (edges st1) = length (edges st))
        by (rewrite Hedges1; apply length_insert).
      rewrite <- HlenE in Hin.
      destruct (IH st1 (withFill cur) Hsty1 Hin)
        as (st' & Hrun & Hsty & Hlen & Hidx & Hkeep & Hd & Hdef).
      assert (Hat : exists e1, edgeAt i st1 = Some e1 /\ edge_style e1 = Some r).
      { exists (set_edge_style (Some r) e). split; [|reflexivity].
        unfold edgeAt in *. destruct (i <? 0)%Z; [discriminate|].
        rewrite Hedges1. apply list_lookup_insert_eq. now apply lookup_lt_Some in He. }
      exists st'. split; [exact Hrun|]. split.
      { rewrite Hsty. cbn [hasIndex existsb orb]. rewrite withFill_idempotent.
        now destruct (hasIndex positions). }
      split; [congruence|]. split; [|split; [|split]].
      * intros j Hj. apply elem_of_cons in Hj as [[= ->]|Hj]; [|now apply Hidx].
        destruct Hat as (e1 & He1 & Hs1). now apply (Hkeep i e1).
      * intros j ej Hej Hsj.
        assert (exists e1, edgeAt j st1 = Some e1 /\ edge_style e1 = Some r) as (e1 & He1 & Hs1).
        { unfold edgeAt in *. destruct (j <? 0)%Z; [discriminate|]. rewrite Hedges1.
          destruct (decide (Z.to_nat i = Z.to_nat j)) as [Hij|Hij].
          - rewrite Hij. exists (set_edge_style (Some r) e). split; [|reflexivity].
            apply list_lookup_insert_eq. now apply lookup_lt_Some in Hej.
          - exists ej. split; [|exact Hsj]. now rewrite list_lookup_insert_ne. }
        now apply (Hkeep j e1).
      * intros Hdin. apply elem_of_cons in Hdin as [Hdin|Hdin]; [discriminate|].
        now apply Hd.
      * intros Hdr. apply Hdef. congruence.
Qed.

(** The list of the caller enters the store, and the loop runs on the
    reference to it. *)
Lemma updateLink_run positions style st :
  updateLink positions style st
    = updateLink_ref positions (length (styleArrays st))
        (with_styleArrays (styleArrays st ++ [style]) st).
Proof. reflexivity. Qed.

(** C9, as amended. In a call of [updateLink] whose integer positions all
    index an edge, [positions] and the style list decide the list that is
    applied: when there is an integer position, it is the given list with
    ["fill:none"] appended unless one of its entries has ["fill"] in it, and
    it has a fill declaration; when every position is the sentinel, it is
    the given list as it is, with no fill declaration added. Every edge named
    by an integer position gets the applied list as its style, and the
    sentinel makes it the fallback style: edge and fallback share one list,
    so a fallback set in a call that also has an integer position shows the
    appended declaration, and one set by the sentinel alone does not. *)
Theorem updateLink_applied_style (positions : list Position) (style : list string)
    (st : State) :
  Forall (inRange (length (edges st))) positions ->
  let st' := exec (updateLink positions style) st in
  let applied := if hasIndex positions then withFill style else style in
  outcome (updateLink positions style) st = Ok tt /\
  (forall i, At i ∈ positions ->
     edgeStyle i st' = Some applied /\
     applied = withFill style /\
     isSubstringInArray "fill" applied <> (-1)%Z) /\
  (Default ∈ positions -> defaultStyleOf st' = Some applied) /\
  (hasIndex positions = false -> applied = style).
Proof.
  intros Hin. cbn zeta. unfold outcome, exec. rewrite updateLink_run.
  set (st0 := with_styleArrays (styleArrays st ++ [style]) st).
  assert (Hr : styleArrays st0 !! length (styleArrays st) = Some style).
  { unfold st0. cbn [styleArrays with_styleArrays].
    rewrite lookup_app_r by lia. now rewrite Nat.sub_diag. }
  destruct (updateLink_ref_run positions (length (styleArrays st)) st0 style Hr Hin)
    as (st' & Hrun & Hsty & Hlen & Hidx & _ & Hd & _).
  rewrite Hrun. cbn [fst snd].
  assert (Hof : styleOf (length (styleArrays st)) st'
                = if hasIndex positions then withFill style else style)
    by (unfold styleOf; now rewrite Hsty).
  split; [reflexivity|]. split; [|split].
  - intros i Hi. destruct (Hidx i Hi) as (e & He & Hs).
    assert (Hhas : hasIndex positions = true).
    { unfold hasIndex. apply existsb_exists. exists (At i). split; [|reflexivity].
      now apply list_elem_of_In. }
    rewrite Hhas in *. split; [|split; [reflexivity | apply withFill_has_fill]].
    unfold edgeStyle. rewrite He. cbn [mbind option_bind]. rewrite Hs.
    cbn [mbind option_bind]. now rewrite Hof.
  - intros Hdin. unfold defaultStyleOf. rewrite (Hd Hdin).
    cbn [fmap option_fmap option_map]. now rewrite Hof.
  - intros ->. reflexivity.
Qed.

(** The sentinel and an index in one call, on a single edge without style:
    edge and fallback both show the appended declaration. *)
Lemma updateLink_applied_style_shared :
  let st := exec (addLink strictEnv (Some "a") (Some "b")
                    (Some (mkLinkType (Some "arrow") (Some "solid") None)) None) initial in
  edgeStyle 0 (exec (updateLink [Default; At 0%Z] ["stroke:red"]) st)
    = Some (if hasIndex [Default; At 0%Z] then withFill ["stroke:red"] else ["stroke:red"]) /\
  defaultStyleOf (exec (updateLink [Default; At 0%Z] ["stroke:red"]) st)
    = Some (if hasIndex [Default; At 0%Z] then withFill ["stroke:red"] else ["stroke:red"]).
Proof.
  intros st.
  destruct (updateLink_applied_style [Default; At 0%Z] ["stroke:red"] st)
    as (_ & Hidx & Hdef & _).
  - repeat constructor; vm_compute; congruence.
  - split.
    + apply Hidx. apply elem_of_cons. right. apply elem_of_cons. now left.
    + apply Hdef. apply elem_of_cons. now left.
Defined.

Example updateLink_shared_value :
  let st := exec (addLink strictEnv (Some "a") (Some "b")
                    (Some (mkLinkType (Some "arrow") (Some "solid") None)) None) initial in
  defaultStyleOf (exec (updateLink [Default; At 0%Z] ["stroke:red"]) st)
    = Some ["stroke:red"; "fill:none"] /\
  defaultStyleOf (exec (updateLink [At 0%Z; Default] ["fill:blue"]) st)
    = Some ["fill:blue"].
Proof. vm_compute. split; reflexivity. Qed.

(** ** The subgraph indexer ends *)

Lemma endsFrom_ok {A} (a : A) s st : (s <= secCount st)%Z -> endsFrom s (Ok a, st).
Proof. intros H. split; [discriminate | exact H]. Qed.

Lemma endsFrom_throw {A} e s st : (s <= secCount st)%Z -> endsFrom s (@Throw A e, st).
Proof. intros H. split; [discriminate | exact H]. Qed.

Lemma endsFrom_weaken {A} s s' (r : Outcome A * State) :
  (s <= s')%Z -> endsFrom s' r -> endsFrom s r.
Proof. intros H [H1 H2]. split; [exact H1 | lia]. Qed.

Lemma indexLoop_enough_fuel recurse (s0 : Z) :
  (forall pos st, (s0 <= secCount st)%Z -> endsFrom (secCount st) (recurse pos st)) ->
  forall nodes posCount st, (s0 <= secCount st)%Z ->
    endsFrom (secCount st) (indexLoop recurse nodes posCount st).
Proof.
  intros Hrec. induction nodes as [|n nodes IH]; intros posCount st Hs.
  - apply endsFrom_ok. lia.
  - cbn [indexLoop]. unfold bind at 1, get at 1.
    destruct (0 <=? getPosForId n st)%Z; [|now apply IH].
    unfold bind at 1. destruct (Hrec (getPosForId n st) st Hs) as [Hfuel Hmono].
    destruct (recurse (getPosForId n st) st) as [[res|e|] st1];
      cbn [fst snd] in Hfuel, Hmono.
    + unfold bind at 1. destruct res as [res|]; cbn [defined].
      * unfold ret at 1. destruct (result res).
        -- now apply endsFrom_ok.
        -- apply (endsFrom_weaken _ (secCount st1)); [exact Hmono|]. apply IH. lia.
      * now apply endsFrom_throw.
    + now apply endsFrom_throw.
    + now destruct Hfuel.
Qed.

(** A visit never runs out of fuel when the fuel covers what is left of the
    2001 admitted visits, plus one for the visit that finds the cap
    exceeded; and the counter never goes down. *)
Lemma indexNodes2_enough_fuel fuel id :
  forall pos st,
    (1 <= fuel)%nat -> (2001 <= secCount st + Z.of_nat fuel)%Z ->
    endsFrom (secCount st) (indexNodes2 fuel id pos st).
Proof.
  induction fuel as [|fuel IH]; intros pos st Hpos Hfuel; [lia|].
  cbn [indexNodes2]. unfold bind at 1, get at 1, bind at 1.
  destruct (subGraphAt pos st) as [sg|]; cbn [defined].
  2:{ apply endsFrom_throw. lia. }
  unfold ret at 1, bind at 1, modify at 1, bind at 1, get at 1.
  cbn [secCount with_secCount].
  destruct (Z.ltb_spec 2000 (secCount st + 1)) as [Hcap|Hcap].
  { apply endsFrom_ok. cbn. lia. }
  unfold bind at 1, modify at 1.
  destruct (String.eqb (sg_id sg) id).
  { apply endsFrom_ok. cbn. lia. }
  unfold bind at 1.
  match goal with
  | |- endsFrom _ (let (_, _) := indexLoop _ _ _ ?st2 in _) =>
      destruct (indexLoop_enough_fuel (indexNodes2 fuel id) (secCount st + 1))
        with (nodes := sg_nodes sg) (posCount := 1%Z) (st := st2) as [H1 H2]
  end.
  - intros pos' st' Hs. apply IH; lia.
  - cbn. lia.
  - cbn [secCount with_posCrossRef with_secCount] in H2.
    destruct (indexLoop _ _ _ _) as [[r|e|] st1]; cbn [fst snd] in H1, H2.
    + apply endsFrom_ok. lia.
    + apply endsFrom_throw. lia.
    + now destruct H1.
Qed.

(** [indexNodes] ends on every registry, cyclic or not: with a result or
    with an exception, never for want of fuel. *)
Lemma indexNodes_ends (st : State) : outcome indexNodes st <> OutOfFuel.
Proof.
  unfold outcome, indexNodes, indexNodes_fuel, bind at 1, modify at 1, bind at 1, get at 1.
  cbn [subGraphs with_secCount].
  destruct (0 <? length (subGraphs st))%nat; [|discriminate].
  unfold bind at 1.
  destruct (indexNodes2_enough_fuel 2002 "none"
              (Z.of_nat (length (subGraphs st)) - 1)%Z (with_secCount (-1) st)) as [H _].
  - lia.
  - cbn [secCount with_secCount]. lia.
  - destruct (indexNodes2 2002 _ _ _) as [[r|e|] st1]; cbn [fst] in H |- *.
    + discriminate.
    + discriminate.
    + now destruct H.
Qed.

(** On a tree of subgraphs the walk ends normally: C holds B, B holds A, and
    the table lists C, B, A by position. *)
Example indexNodes_nested :
  let st := exec (addSubGraph strictEnv (Some "A") [["a"]] (Some "A") ;;
                  addSubGraph strictEnv (Some "B") [["A"; "b"]] (Some "B") ;;
                  addSubGraph strictEnv (Some "C") [["c"; "B"]] (Some "C")) initial in
  outcome indexNodes st = Ok tt /\
  getDepthFirstPos 0 (exec indexNodes st) = Some 2%Z /\
  getDepthFirstPos 1 (exec indexNodes st) = Some 1%Z /\
  getDepthFirstPos 2 (exec indexNodes st) = Some 0%Z /\
  getDepthFirstPos 3 (exec indexNodes st) = None.
Proof. vm_compute. repeat split. Qed.

(** * Further properties of the operations *)

(** ** Normalization of ids *)

Lemma normalize_canonical x : x <> EmptyString -> canonical (normalize x).
Proof.
  destruct x as [|c x]; [done|]. intros _. unfold normalize, canonical.
  destruct (JsString.is_digit c) eqn:Hc.
  - exists "s"%char. split; reflexivity.
  - exists c. split; [reflexivity | exact Hc].
Qed.

Lemma normalize_of_canonical y : canonical y -> normalize y = y.
Proof.
  intros (c & Hh & Hd). destruct y as [|d y]; [discriminate|].
  cbn in Hh. injection Hh as ->. unfold normalize. now rewrite Hd.
Qed.

Lemma canonical_nonempty y : canonical y -> y <> EmptyString.
Proof. intros (c & Hh & _) ->. discriminate. Qed.

(** X1. The inline normalization of ids is idempotent on every text that is
    not empty: its result does not begin with a digit, and normalizing the
    result again gives it back; neither step throws or changes the state. *)
Theorem prefixIfDigit_idempotent (x : string) (st : State) :
  x <> EmptyString ->
  exists y,
    prefixIfDigit x st = (Ok y, st) /\
    prefixIfDigit y st = (Ok y, st) /\
    canonical y.
Proof.
  intros Hx. exists (normalize x).
  pose proof (normalize_canonical x Hx) as Hc.
  split; [now apply prefixIfDigit_normalize|]. split; [|exact Hc].
  rewrite prefixIfDigit_normalize by now apply canonical_nonempty.
  now rewrite normalize_of_canonical.
Qed.

Lemma prefixIfDigit_idempotent_1node :
  exists y,
    prefixIfDigit "1node" initial = (Ok y, initial) /\
    prefixIfDigit y initial = (Ok y, initial) /\
    canonical y.
Proof. apply (prefixIfDigit_idempotent "1node" initial). discriminate. Defined.

(** ** Sanitized text *)

Lemma contains_app c s t :
  JsString.contains c (s ++ t)%string = JsString.contains c s || JsString.contains c t.
Proof.
  induction s as [|d s IH]; [reflexivity|].
  change (String d s ++ t)%string with (String d (s ++ t)%string).
  cbn [JsString.contains]. rewrite IH. now rewrite orb_assoc.
Qed.

(** A replacement brings no character that neither the text nor the
    replacing text has. *)
Lemma replace_scan_keeps_absent c m rep :
  JsString.contains c rep = false ->
  forall s skip, JsString.contains c s = false ->
    JsString.contains c (JsString.replace_scan m rep skip s) = false.
Proof.
  intros Hrep. induction s as [|d s IH]; intros skip Hs; [reflexivity|].
  cbn [JsString.contains] in Hs. apply orb_false_elim in Hs as [Hd Hs].
  cbn [JsString.replace_scan]. destruct skip as [|k]; [|now apply IH].
  destruct (m (String d s)) as [[|k]|].
  - cbn [JsString.contains]. now rewrite Hd, IH.
  - now rewrite contains_app, Hrep, IH.
  - cbn [JsString.contains]. now rewrite Hd, IH.
Qed.

Lemma prefix_single c d s :
  String.prefix (String c EmptyString) (String d s) = Ascii.eqb c d.
Proof.
  cbn [String.prefix]. destruct (ascii_dec c d) as [->|Hne].
  - destruct s; now rewrite Ascii.eqb_refl.
  - symmetry. now apply Ascii.eqb_neq.
Qed.

(** Replacing every occurrence of a character removes it. *)
Lemma replace_char_removes c rep :
  JsString.contains c rep = false ->
  forall s, JsString.contains c
              (JsString.replace_scan (JsString.lit (String c EmptyString)) rep 0 s) = false.
Proof.
  intros Hrep. induction s as [|d s IH]; [reflexivity|].
  cbn [JsString.replace_scan]. unfold JsString.lit at 1. rewrite prefix_single.
  destruct (Ascii.eqb c d) eqn:Hcd.
  - cbn [String.length]. now rewrite contains_app, Hrep, IH.
  - cbn [JsString.contains]. now rewrite Hcd, IH.
Qed.

Lemma prefix_br_first d s :
  Ascii.eqb d "<" = false -> String.prefix "<br/>" (String d s) = false.
Proof.
  intros Hd. cbn [String.prefix]. destruct (ascii_dec "<" d) as [<-|_]; [|reflexivity].
  discriminate.
Qed.

Lemma onlyBrTags_scan_br x :
  onlyBrTags_scan 0 ("<br/>" ++ x)%string = onlyBrTags_scan 0 x.
Proof. destruct x; reflexivity. Qed.

(** Once the angle brackets are gone, putting [<br/>] for [#br#] gives a
    text whose angle brackets all belong to such tags. *)
Lemma replace_br_onlyBrTags :
  forall s skip,
    JsString.contains "<" s = false -> JsString.contains ">" s = false ->
    onlyBrTags (JsString.replace_scan (JsString.lit "#br#") "<br/>" skip s) = true.
Proof.
  unfold onlyBrTags.
  induction s as [|d s IH]; intros skip Hlt Hgt; [reflexivity|].
  cbn [JsString.contains] in Hlt, Hgt.
  apply orb_false_elim in Hlt as [Hd1 Hlt]. apply orb_false_elim in Hgt as [Hd2 Hgt].
  rewrite Ascii.eqb_sym in Hd1. rewrite Ascii.eqb_sym in Hd2.
  cbn [JsString.replace_scan]. destruct skip as [|k]; [|now apply IH].
  assert (Hkeep : onlyBrTags_scan 0
                    (String d (JsString.replace_scan (JsString.lit "#br#") "<br/>" 0 s)) = true).
  { cbn [onlyBrTags_scan]. rewrite prefix_br_first by done.
    rewrite Hd1, Hd2. cbn [negb andb]. now apply IH. }
  unfold JsString.lit at 1. destruct (String.prefix "#br#" (String d s)); [|exact Hkeep].
  cbn [String.length]. rewrite onlyBrTags_scan_br. now apply IH.
Qed.

(** X2. Under every security level but ['loose'], the text that [sanitize]
    returns has angle brackets only as parts of complete [<br/>] tags and
    has no equals sign in it, whatever the text it was given. *)
Theorem sanitize_leaves_only_br_tags (env : Env) (text : string) :
  securityLevel env <> "loose" ->
  onlyBrTags (sanitize env text) = true /\
  JsString.contains "=" (sanitize env text) = false.
Proof.
  intros Hlevel. unfold sanitize.
  destruct (String.eqb_spec (securityLevel env) "loose") as [?|_]; [done|].
  cbn [negb]. unfold JsString.replace_all.
  set (t2 := JsString.replace_scan JsString.br_tag "#br#" 0 _).
  set (t3 := JsString.replace_scan (JsString.lit "<") "&lt;" 0 t2).
  set (t4 := JsString.replace_scan (JsString.lit ">") "&gt;" 0 t3).
  set (t5 := JsString.replace_scan (JsString.lit "=") "&equals;" 0 t4).
  assert (H3 : JsString.contains "<" t3 = false) by now apply replace_char_removes.
  assert (H4 : JsString.contains ">" t4 = false) by now apply replace_char_removes.
  assert (H4' : JsString.contains "<" t4 = false) by now apply replace_scan_keeps_absent.
  assert (H5 : JsString.contains "=" t5 = false) by now apply replace_char_removes.
  split.
  - apply replace_br_onlyBrTags; now apply replace_scan_keeps_absent.
  - now apply replace_scan_keeps_absent.
Qed.

Lemma sanitize_leaves_only_br_tags_strict :
  onlyBrTags (sanitize strictEnv "<b>a=1</b><br><br x/>") = true /\
  JsString.contains "=" (sanitize strictEnv "<b>a=1</b><br><br x/>") = false.
Proof. apply (sanitize_leaves_only_br_tags strictEnv). discriminate. Defined.

(** ** The vertex registry *)

Lemma with_vertices_same st : with_vertices (vertices st) st = st.
Proof. now destruct st. Qed.

Lemma updateVertex_run id f st v :
  vertices st !! id = Some v ->
  updateVertex id f st = (Ok tt, with_vertices (<[id := f v]> (vertices st)) st).
Proof.
  intros Hv. unfold updateVertex, bind at 1, get at 1, bind at 1.
  rewrite Hv. reflexivity.
Qed.

(** A run of pushes on one record is one update of that record. *)
Lemma forEach_updateVertex id (g : string -> Vertex -> Vertex) l :
  forall st v, vertices st !! id = Some v ->
    forEach (fun s => updateVertex id (g s)) l st
      = (Ok tt, with_vertices (<[id := foldl (fun v s => g s v) v l]> (vertices st)) st).
Proof.
  induction l as [|x l IH]; intros st v Hv; cbn [forEach foldl].
  - unfold ret. now rewrite insert_id, with_vertices_same.
  - unfold bind at 1. rewrite (updateVertex_run id (g x) st v Hv).
    rewrite (IH _ (g x v)) by (cbn [vertices with_vertices]; apply lookup_insert_eq).
    cbn [vertices with_vertices]. now rewrite insert_insert_eq.
Qed.

Lemma foldl_push_style l v :
  foldl (fun v s => push_vertex_style s v) v l
    = mkVertex (vertex_id v) (vertex_text v) (vertex_type v) (vertex_styles v ++ l)
        (vertex_classes v) (vertex_link v).
Proof.
  revert v. induction l as [|x l IH]; intros v; cbn [foldl].
  - rewrite app_nil_r. now destruct v.
  - rewrite IH. cbn. now rewrite <- app_assoc.
Qed.

Lemma foldl_push_class l v :
  foldl (fun v s => push_vertex_class s v) v l
    = mkVertex (vertex_id v) (vertex_text v) (vertex_type v) (vertex_styles v)
        (vertex_classes v ++ l) (vertex_link v).
Proof.
  revert v. induction l as [|x l IH]; intros v; cbn [foldl].
  - rewrite app_nil_r. now destruct v.
  - rewrite IH. cbn. now rewrite <- app_assoc.
Qed.

(** The pushes of an optional list argument, as one update. *)
Lemma pushes_run id (g : string -> Vertex -> Vertex) (a : JsArg (list string)) st v :
  vertices st !! id = Some v ->
  (match a with
   | Given l => forEach (fun s => updateVertex id (g s)) l
   | _ => ret tt
   end) st
    = (Ok tt, with_vertices (<[id := foldl (fun v s => g s v) v (givenList a)]> (vertices st)) st).
Proof.
  intros Hv. destruct a as [| |l]; cbn [givenList foldl].
  - unfold ret. now rewrite insert_id, with_vertices_same.
  - unfold ret. now rewrite insert_id, with_vertices_same.
  - now apply forEach_updateVertex.
Qed.

(** The text step of lines 56 to 69 on the record [v]. *)
Lemma addVertex_text_run env id raw text st v :
  vertices st !! id = Some v ->
  (match text with
   | Some text =>
       updateVertex id (set_vertex_text (Some (stripQuotes (sanitize env (JsString.trim text)))))
   | None =>
       let* st := get in
       let* v := defined (vertices st !! id) in
       if falsy (vertex_text v) then updateVertex id (set_vertex_text (Some raw))
       else ret tt
   end) st
    = (Ok tt,
       with_vertices
         (<[id := set_vertex_text
                    (match text with
                     | Some text => Some (unquote (sanitize env (JsString.trim text)))
                     | None => if falsy (vertex_text v) then Some raw else vertex_text v
                     end) v]> (vertices st)) st).
Proof.
  intros Hv. destruct text as [text|].
  - rewrite (updateVertex_run _ _ _ _ Hv). now rewrite stripQuotes_unquote.
  - unfold bind at 1, get at 1, bind at 1. rewrite Hv. cbn [defined]. unfold ret at 1.
    destruct (falsy (vertex_text v)).
    + now rewrite (updateVertex_run _ _ _ _ Hv).
    + unfold ret. replace (set_vertex_text (vertex_text v) v) with v by now destruct v.
      now rewrite insert_id, with_vertices_same.
Qed.

(** A call of [addVertex] with an id that is not blank, from the record [v]
    that the registry has for it, or the fresh record: one update. *)
Lemma addVertex_run env raw text type style classes st :
  nonBlank raw ->
  let id := normalize raw in
  let v := default (mkVertex id None None [] [] None) (vertices st !! id) in
  addVertex env (Some raw) text type style classes st
    = (Ok tt,
       with_vertices
         (<[id := mkVertex (vertex_id v)
                    (match text with
                     | Some text => Some (unquote (sanitize env (JsString.trim text)))
                     | None => if falsy (vertex_text v) then Some raw else vertex_text v
                     end)
                    (match type with Some ty => Some ty | None => vertex_type v end)
                    (vertex_styles v ++ givenList style)
                    (vertex_classes v ++ givenList classes)
                    (vertex_link v)]> (vertices st)) st).
Proof.
  intros Hnb id v. unfold addVertex.
  assert (Hlen : (String.length (JsString.trim raw) =? 0)%nat = false).
  { apply Nat.eqb_neq. intros H. apply Hnb. now destruct (JsString.trim raw). }
  rewrite Hlen. unfold bind at 1.
  rewrite prefixIfDigit_normalize by now apply nonBlank_nonempty.
  fold id. unfold bind at 1, get at 1, bind at 1.
  set (st1 := with_vertices (<[id := v]> (vertices st)) st).
  assert (H1 : (match vertices st !! id with
                | None => modify (with_vertices (<[id := mkVertex id None None [] [] None]> (vertices st)))
                | Some _ => ret tt
                end) st = (Ok tt, st1)).
  { unfold st1, v. destruct (vertices st !! id) as [v0|] eqn:E; cbn [default].
    - unfold ret. now rewrite insert_id, with_vertices_same.
    - reflexivity. }
  rewrite H1.
  assert (Hv1 : vertices st1 !! id = Some v) by (cbn; apply lookup_insert_eq).
  unfold bind at 1. rewrite (addVertex_text_run env id raw text st1 v Hv1).
  set (v2 := set_vertex_text _ v).
  set (st2 := with_vertices _ st1).
  assert (Hv2 : vertices st2 !! id = Some v2) by (cbn; apply lookup_insert_eq).
  unfold bind at 1.
  set (v3 := set_vertex_type (match type with Some ty => Some ty | None => vertex_type v2 end) v2).
  set (st3 := with_vertices (<[id := v3]> (vertices st2)) st2).
  assert (H3 : (match type with
                | Some ty => updateVertex id (set_vertex_type (Some ty))
                | None => ret tt
                end) st2 = (Ok tt, st3)).
  { unfold st3, v3. destruct type as [ty|].
    - now apply updateVertex_run.
    - unfold ret. replace (set_vertex_type (vertex_type v2) v2) with v2 by now destruct v2.
      now rewrite insert_id, with_vertices_same. }
  rewrite H3.
  assert (Hv3 : vertices st3 !! id = Some v3) by (cbn; apply lookup_insert_eq).
  unfold bind at 1.
  rewrite (pushes_run id push_vertex_style style st3 v3 Hv3).
  rewrite foldl_push_style.
  set (v4 := mkVertex _ _ _ (vertex_styles v3 ++ givenList style) _ _).
  set (st4 := with_vertices _ st3).
  assert (Hv4 : vertices st4 !! id = Some v4) by (cbn; apply lookup_insert_eq).
  rewrite (pushes_run id push_vertex_class classes st4 v4 Hv4).
  rewrite foldl_push_class.
  subst st4 v4 st3 v3 st2 v2 st1.
  cbn [vertices with_vertices]. rewrite !insert_insert_eq. reflexivity.
Qed.

Lemma nonBlank_trim_length raw :
  (String.length (JsString.trim raw) =? 0)%nat = true -> JsString.trim raw = EmptyString.
Proof. intros H. apply Nat.eqb_eq in H. now destruct (JsString.trim raw). Qed.

(** The key that the operations look up for an id that is an own name is an
    own name too: no inherited name is ['s'] followed by a digit. *)
Lemma ownName_normalize (_id : string) : ownName _id -> ownName (normalize _id).
Proof.
  intros Hown. unfold normalize. destruct _id as [|c r]; [exact Hown|].
  cbn [JsString.head]. destruct (JsString.is_digit c) eqn:Hc; [|exact Hown].
  unfold ownName. intros Hin. apply list_elem_of_In in Hin.
  assert (Hall : forallb (fun name => negb (digitSecond name))
                   (objectPrototypeNames ++ arrayPrototypeNames) = true) by reflexivity.
  rewrite forallb_forall in Hall. apply Hall in Hin.
  change (negb (JsString.is_digit c) = true) in Hin. now rewrite Hc in Hin.
Qed.







Example addVertex_merges_value :
  vertices (exec (addVertex strictEnv (Some "a") (Some "Start") None Undefined Undefined ;;
                  addVertex strictEnv (Some "a") None None (Given ["fill:red"]) Undefined) initial)
    !! "a"
    = Some (mkVertex "a" (Some "Start") None ["fill:red"] [] None).
Proof. vm_compute. reflexivity. Qed.

(** ** Properties that a part of the state decides *)

Lemma preserves_bind_get (P : State -> Prop) {A} (k : State -> JS A) :
  (forall s, P s -> P (snd (k s s))) -> preserves P (bind get k).
Proof. intros Hk st H. unfold bind, get. now apply Hk. Qed.

(** One step for a property that the state change at hand does not touch:
    the changed state has the property by computation. *)
Ltac frame_step :=
  lazymatch goal with
  | |- preserves _ (bind _ _) => apply preserves_bind; [|intros ?]
  | |- preserves _ (ret _) => apply preserves_ret
  | |- preserves _ (throw _) => apply preserves_throw
  | |- preserves _ get => apply preserves_get
  | |- preserves _ (defined _) => apply preserves_defined
  | |- preserves _ (prefixIfDigit _) => apply preserves_prefixIfDigit
  | |- preserves _ (prefixEach _) => apply preserves_prefixEach
  | |- preserves _ (forEach _ _) => apply preserves_forEach; intros ?
  | |- preserves _ (modify _) =>
      apply preserves_modify; let H := fresh in intros ? H; exact H
  | |- preserves _ (match ?x with _ => _ end) => destruct x
  end.

Ltac frame_tac := repeat frame_step.

Section Untouched.

(** A property that the visit counter and the position table do not bear
    on is kept by the indexer. *)
Variable P : State -> Prop.
Hypothesis P_secCount : forall n st, P st -> P (with_secCount n st).
Hypothesis P_posCrossRef : forall p st, P st -> P (with_posCrossRef p st).

Lemma indexLoop_untouched recurse nodes posCount :
  (forall pos, preserves P (recurse pos)) ->
  preserves P (indexLoop recurse nodes posCount).
Proof.
  intros Hrec. revert posCount.
  induction nodes as [|n nodes IH]; intros posCount; cbn [indexLoop].
  - apply preserves_ret.
  - frame_tac; try apply Hrec; apply IH.
Qed.

Lemma indexNodes2_untouched fuel id pos : preserves P (indexNodes2 fuel id pos).
Proof.
  revert pos. induction fuel as [|fuel IH]; intros pos; cbn [indexNodes2].
  - apply preserves_out_of_fuel.
  - apply preserves_bind; [apply preserves_get|]. intros st0.
    apply preserves_bind; [apply preserves_defined|]. intros sg.
    apply preserves_bind; [apply preserves_modify; intros; now apply P_secCount|].
    intros _. apply preserves_bind; [apply preserves_get|]. intros st1.
    destruct (2000 <? secCount st1)%Z; [apply preserves_ret|].
    apply preserves_bind; [apply preserves_modify; intros; now apply P_posCrossRef|].
    intros _. destruct (String.eqb (sg_id sg) id); [apply preserves_ret|].
    apply preserves_bind; [now apply indexLoop_untouched|].
    intros r. apply preserves_ret.
Qed.

Lemma indexNodes_untouched : preserves P indexNodes.
Proof.
  unfold indexNodes, indexNodes_fuel.
  apply preserves_bind; [apply preserves_modify; intros; now apply P_secCount|].
  intros _. apply preserves_bind; [apply preserves_get|]. intros st0.
  destruct (0 <? length (subGraphs st0))%nat; [|apply preserves_ret].
  apply preserves_bind; [apply indexNodes2_untouched | intros ?; apply preserves_ret].
Qed.

End Untouched.

(** ** The vertex registry over a session *)

Lemma vertexKeysCanonical_update st id v f :
  vertexKeysCanonical st ->
  vertices st !! id = Some v ->
  vertex_id (f v) = vertex_id v ->
  vertexKeysCanonical (with_vertices (<[id := f v]> (vertices st)) st).
Proof.
  intros Hinv Hv Hf k w. cbn [vertices with_vertices].
  destruct (decide (id = k)) as [<-|Hne].
  - rewrite lookup_insert_eq. intros [= <-]. rewrite Hf. now apply Hinv.
  - rewrite lookup_insert_ne by done. apply Hinv.
Qed.

Lemma addVertex_keeps_keys env _id text type style cls :
  preserves vertexKeysCanonical (addVertex env _id text type style cls).
Proof.
  intros st Hinv. destruct _id as [raw|]; [|exact Hinv].
  destruct (decide (nonBlank raw)) as [Hnb|Hb].
  - rewrite addVertex_run by done. cbn [snd]. intros k w.
    cbn [vertices with_vertices].
    destruct (decide (normalize raw = k)) as [<-|Hne].
    + rewrite lookup_insert_eq. intros [= <-]. cbn [vertex_id]. split; [|split].
      * destruct (vertices st !! normalize raw) as [v|] eqn:E; cbn [default].
        -- now apply Hinv.
        -- reflexivity.
      * apply normalize_canonical. now apply nonBlank_nonempty.
      * now apply normalize_nonBlank.
    + rewrite lookup_insert_ne by done. apply Hinv.
  - assert (Hraw : JsString.trim raw = EmptyString).
    { unfold nonBlank in Hb. now destruct (decide (JsString.trim raw = EmptyString)). }
    unfold addVertex. rewrite Hraw. exact Hinv.
Qed.

Lemma setClass_keeps_keys ids className :
  preserves vertexKeysCanonical (setClass ids className).
Proof.
  unfold setClass. apply preserves_forEach. intros _id st Hinv.
  destruct (decide (_id = EmptyString)) as [->|Hne]; [exact Hinv|].
  rewrite setClass_each_run by done. cbn [snd]. cbn zeta.
  assert (H1 : vertexKeysCanonical
                 (match vertices st !! normalize _id with
                  | Some v => with_vertices
                                (<[normalize _id := push_vertex_class className v]> (vertices st)) st
                  | None => st
                  end)).
  { destruct (vertices st !! normalize _id) as [v|] eqn:E; [|exact Hinv].
    now apply vertexKeysCanonical_update. }
  destruct (subGraphLookup st !! normalize _id); exact H1.
Qed.

Lemma setLink_keeps_keys env ids linkStr tooltip :
  preserves vertexKeysCanonical (setLink env ids linkStr tooltip).
Proof.
  unfold setLink. apply preserves_bind.
  - apply preserves_forEach. intros _id.
    apply preserves_bind; [apply preserves_prefixIfDigit|]. intros id.
    apply preserves_bind_get. intros s Hs.
    destruct (vertices s !! id) as [v|] eqn:E; [|exact Hs].
    cbn [modify snd]. now apply vertexKeysCanonical_update.
  - intros _. apply preserves_bind; [unfold setTooltip; frame_tac|].
    intros _. apply setClass_keeps_keys.
Qed.

Lemma call_keeps_keys env c : preserves vertexKeysCanonical (call env c).
Proof.
  destruct c; cbn [call].
  - apply addVertex_keeps_keys.
  - unfold addLink. frame_tac.
  - unfold updateLinkInterpolate, updateEdge. frame_tac.
  - unfold updateLink, updateLink_ref, updateLink_each, allocStyle, pushStyle, updateEdge.
    frame_tac.
  - unfold addClass. frame_tac.
  - unfold setDirection. frame_tac.
  - apply setClass_keeps_keys.
  - apply setLink_keeps_keys.
  - unfold setClickEvent. apply preserves_bind; [unfold setClickFun; frame_tac|].
    intros _. apply preserves_bind; [unfold setTooltip; frame_tac|].
    intros _. apply setClass_keeps_keys.
  - unfold addSubGraph. frame_tac.
  - intros st _. rewrite clear_run. cbn [snd]. intros k v. cbn [vertices].
    now rewrite lookup_empty.
  - apply indexNodes_untouched; intros ? ? H; exact H.
  - unfold firstGraph. frame_tac.
Qed.

(** X6. After any sequence of calls, every key of the vertex registry is
    the id of the record it leads to, does not begin with a digit and is not
    blank: no operation registers a vertex under a raw id, and none changes
    the id of a record. *)
Theorem vertex_keys_canonical (env : Env) (calls : list Call) :
  forall k v, getVertices (run env calls initial) !! k = Some v ->
    vertex_id v = k /\ canonical k /\ nonBlank k.
Proof.
  change (vertexKeysCanonical (run env calls initial)).
  assert (H : forall st, vertexKeysCanonical st -> vertexKeysCanonical (run env calls st)).
  { induction calls as [|c calls IH]; intros st Hst; [exact Hst|].
    cbn [run foldl]. apply IH. now apply call_keeps_keys. }
  apply H. intros k v. unfold initial. cbn [vertices]. now rewrite lookup_empty.
Qed.

Lemma vertex_keys_canonical_1a :
  vertex_id (mkVertex "s1a" (Some "1a") None [] [] None) = "s1a" /\
  canonical "s1a" /\ nonBlank "s1a".
Proof.
  apply (vertex_keys_canonical strictEnv
           [CallAddVertex (Some "1a") None None Undefined Undefined]
           "s1a" (mkVertex "s1a" (Some "1a") None [] [] None)).
  vm_compute. reflexivity.
Defined.

(** ** The edge list in declaration order *)

Lemma addLink_run env s e ty linktext st :
  s <> EmptyString -> e <> EmptyString ->
  addLink env (Some s) (Some e) (Some ty) linktext st
    = (Ok tt, with_edges (edges st ++ [declaredEdge env (s, e, ty, linktext)]) st).
Proof.
  intros Hs He. unfold addLink. cbn [defined]. unfold bind at 1, ret at 1.
  unfold bind at 1. rewrite prefixIfDigit_normalize by done.
  unfold bind at 1, ret at 1. unfold bind at 1. rewrite prefixIfDigit_normalize by done.
  unfold bind at 1, ret at 1. unfold modify, declaredEdge.
  now rewrite edgeText_derivedText.
Qed.

Lemma addLinks_run env links :
  forall st, Forall endpointsGiven links ->
    addLinks env links st
      = (Ok tt, with_edges (edges st ++ (declaredEdge env <$> links)) st).
Proof.
  unfold addLinks. induction links as [|[[[s e] ty] lt] links IH]; intros st Hall.
  - cbn [forEach fmap list_fmap]. unfold ret. rewrite app_nil_r.
    now destruct st.
  - apply Forall_cons in Hall as [[Hs He] Hall]. cbn [forEach]. unfold bind at 1.
    rewrite addLink_run by done. rewrite IH by done.
    cbn [edges with_edges fmap list_fmap]. now rewrite <- app_assoc.
Qed.

(** X7. Declarations with endpoints that are not empty all succeed, and the
    edge list grows by their edges in call order: the i-th call of the
    sequence gives the edge at position i after the edges that were there,
    and these stay where they were, as they were. *)
Theorem addLinks_declaration_order (env : Env) (links : list LinkArgs) (st : State) :
  Forall endpointsGiven links ->
  let st' := exec (addLinks env links) st in
  outcome (addLinks env links) st = Ok tt /\
  length (edges st') = length (edges st) + length links /\
  (forall j, j < length (edges st) -> edges st' !! j = edges st !! j) /\
  (forall i a, links !! i = Some a ->
     edges st' !! (length (edges st) + i) = Some (declaredEdge env a)).
Proof.
  intros Hall. cbn zeta. unfold outcome, exec. rewrite addLinks_run by done.
  cbn [fst snd edges with_edges]. split; [reflexivity|]. split; [|split].
  - now rewrite length_app, length_fmap.
  - intros j Hj. now apply lookup_app_l.
  - intros i a Hi. rewrite lookup_app_r by lia.
    replace (length (edges st) + i - length (edges st)) with i by lia.
    now rewrite list_lookup_fmap, Hi.
Qed.

Lemma addLinks_declaration_order_two :
  edges (exec (addLinks strictEnv
                 [("1node", "node2", mkLinkType (Some "arrow") (Some "solid") None, Some "go");
                  ("node2", "c", mkLinkType (Some "open") (Some "dotted") (Some "x"), None)])
           initial) !! (length (edges initial) + 1)
    = Some (declaredEdge strictEnv
              ("node2", "c", mkLinkType (Some "open") (Some "dotted") (Some "x"), None)).
Proof.
  destruct (addLinks_declaration_order strictEnv
              [("1node", "node2", mkLinkType (Some "arrow") (Some "solid") None, Some "go");
               ("node2", "c", mkLinkType (Some "open") (Some "dotted") (Some "x"), None)]
              initial) as (_ & _ & _ & H).
  - repeat constructor; discriminate.
  - apply (H 1). reflexivity.
Defined.

(** X8. [addLink] throws a [TypeError] exactly when an endpoint is
    [undefined] or empty or the type descriptor is [undefined]; it then
    leaves the state as it was, and in every other case it ends normally. *)
Theorem addLink_throws_iff (env : Env) (_start _end : option string)
    (type : option LinkType) (linktext : option string) (st : State) :
  (outcome (addLink env _start _end type linktext) st = Throw TypeError <->
     _start = None \/ _start = Some EmptyString \/
     _end = None \/ _end = Some EmptyString \/ type = None) /\
  (outcome (addLink env _start _end type linktext) st = Throw TypeError ->
     exec (addLink env _start _end type linktext) st = st) /\
  (outcome (addLink env _start _end type linktext) st <> Throw TypeError ->
     outcome (addLink env _start _end type linktext) st = Ok tt).
Proof.
  unfold outcome, exec.
  destruct _start as [[|c s]|]; try (cbn; split; [split; [auto | reflexivity] | split; [reflexivity | done]]).
  destruct _end as [[|d e]|]; try (cbn; split; [split; [auto 6 | reflexivity] | split; [reflexivity | done]]).
  destruct type as [ty|]; try (cbn; split; [split; [auto 6 | reflexivity] | split; [reflexivity | done]]).
  rewrite addLink_run by discriminate. cbn [fst snd].
  split; [split|split].
  - discriminate.
  - intros [H|[H|[H|[H|H]]]]; discriminate.
  - discriminate.
  - reflexivity.
Qed.

(** ** Bulk edge updates *)

Lemma edgeAt_out_of_range i st :
  ~ inRange (length (edges st)) (At i) -> edgeAt i st = None.
Proof.
  cbn [inRange]. intros H. unfold edgeAt.
  destruct (Z.ltb_spec i 0); [reflexivity|].
  apply lookup_ge_None. lia.
Qed.

Lemma updateEdge_throws i f st :
  edgeAt i st = None -> updateEdge i f st = (Throw TypeError, st).
Proof.
  intros He. unfold updateEdge, bind at 1, get at 1, bind at 1. now rewrite He.
Qed.

Lemma edgeAt_after_update i j f e st :
  edgeAt i st = Some e ->
  edgeAt j (with_edges (<[Z.to_nat i := f e]> (edges st)) st)
    = if decide (i = j) then Some (f e) else edgeAt j st.
Proof.
  unfold edgeAt. cbn [edges with_edges]. intros He.
  destruct (Z.ltb_spec i 0) as [|Hi]; [discriminate|].
  destruct (decide (i = j)) as [<-|Hne].
  - destruct (Z.ltb_spec i 0); [lia|].
    apply list_lookup_insert_eq. now apply lookup_lt_Some in He.
  - destruct (Z.ltb_spec j 0); [reflexivity|].
    apply list_lookup_insert_ne. lia.
Qed.

Lemma set_edge_interpolate_twice x e :
  set_edge_interpolate x (set_edge_interpolate x e) = set_edge_interpolate x e.
Proof. reflexivity. Qed.

(** The whole loop of [updateLinkInterpolate] on positions in range. *)
Lemma updateLinkInterpolate_run interp positions :
  forall st, Forall (inRange (length (edges st))) positions ->
    exists st',
      updateLinkInterpolate positions interp st = (Ok tt, st') /\
      length (edges st') = length (edges st) /\
      (forall j e, edgeAt j st = Some e ->
         edgeAt j st' = Some (if decide (At j ∈ positions)
                              then set_edge_interpolate (Some interp) e else e)) /\
      edges_defaultInterpolate st'
        = (if decide (Default ∈ positions) then Some interp
           else edges_defaultInterpolate st) /\
      edges_defaultStyle st' = edges_defaultStyle st /\
      vertices st' = vertices st /\ subGraphs st' = subGraphs st.
Proof.
  unfold updateLinkInterpolate.
  induction positions as [|p positions IH]; intros st Hin.
  - exists st. cbn [forEach]. split; [reflexivity|]. split; [reflexivity|].
    split; [|split; [|repeat split]].
    + intros j e He. rewrite decide_False; [done|]. apply not_elem_of_nil.
    + rewrite decide_False; [done|]. apply not_elem_of_nil.
  - apply Forall_cons in Hin as [Hp Hin]. cbn [forEach]. unfold bind at 1.
    destruct p as [|i].
    + cbn [modify].
      destruct (IH (with_defaultInterpolate (Some interp) st) Hin)
        as (st' & Hrun & Hlen & Hedge & Hdef & Hsty & Hv & Hs).
      exists st'. split; [exact Hrun|]. split; [exact Hlen|]. split; [|split].
      * intros j e He. rewrite (Hedge j e He).
        destruct (decide (At j ∈ positions)) as [Hj|Hj].
        -- rewrite decide_True; [done|]. now apply elem_of_cons; right.
        -- rewrite decide_False; [done|]. intros H. apply elem_of_cons in H as [H|H]; done.
      * rewrite Hdef. cbn [edges_defaultInterpolate with_defaultInterpolate].
        rewrite (decide_True (P := Default ∈ Default :: positions)) by (apply elem_of_cons; now left).
        now destruct (decide (Default ∈ positions)).
      * repeat split; assumption.
    + destruct (edgeAt_in_range i st Hp) as [e0 He0].
      rewrite (updateEdge_run i _ st e0 He0).
      set (st1 := with_edges _ st).
      assert (Hlen1 : length (edges st1) = length (edges st))
        by (unfold st1; cbn [edges with_edges]; apply length_insert).
      rewrite <- Hlen1 in Hin.
      destruct (IH st1 Hin) as (st' & Hrun & Hlen & Hedge & Hdef & Hsty & Hv & Hs).
      exists st'. split; [exact Hrun|]. split; [congruence|]. split; [|split].
      * intros j e He.
        pose proof (edgeAt_after_update i j (set_edge_interpolate (Some interp)) e0 st He0) as H1.
        fold st1 in H1.
        destruct (decide (i = j)) as [<-|Hne].
        -- rewrite (Hedge i _ H1).
           assert (e = e0) as -> by congruence.
           rewrite (decide_True (P := At i ∈ At i :: positions)) by (apply elem_of_cons; now left).
           now destruct (decide (At i ∈ positions)).
        -- rewrite He in H1. rewrite (Hedge j e H1).
           destruct (decide (At j ∈ positions)) as [Hj|Hj].
           ++ rewrite decide_True; [done|]. now apply elem_of_cons; right.
           ++ rewrite decide_False; [done|].
              intros H. apply elem_of_cons in H as [[= ->]|H]; done.
      * rewrite Hdef. cbn [edges_defaultInterpolate].
        destruct (decide (Default ∈ positions)) as [Hd|Hd].
        -- rewrite decide_True; [done|]. now apply elem_of_cons; right.
        -- rewrite decide_False; [done|].
           intros H. apply elem_of_cons in H as [H|H]; done.
      * repeat split; assumption.
Qed.

(** X9. With every integer position in range, [updateLinkInterpolate] ends
    normally; the edges named by the positions get the interpolation, with
    nothing else of them changed, every other edge stays as it was, the
    number of edges stays, and the sentinel sets the fallback
    interpolation, which stays as it was without it. *)
Theorem updateLinkInterpolate_in_range (positions : list Position) (interp : string)
    (st : State) :
  Forall (inRange (length (edges st))) positions ->
  let st' := exec (updateLinkInterpolate positions interp) st in
  outcome (updateLinkInterpolate positions interp) st = Ok tt /\
  length (edges st') = length (edges st) /\
  (forall j e, edgeAt j st = Some e ->
     edgeAt j st' = Some (if decide (At j ∈ positions)
                          then set_edge_interpolate (Some interp) e else e)) /\
  edges_defaultInterpolate st'
    = (if decide (Default ∈ positions) then Some interp else edges_defaultInterpolate st).
Proof.
  intros Hin. cbn zeta. unfold outcome, exec.
  destruct (updateLinkInterpolate_run interp positions st Hin)
    as (st' & Hrun & Hlen & Hedge & Hdef & _).
  rewrite Hrun. cbn [fst snd]. repeat split; assumption.
Qed.

Lemma updateLinkInterpolate_in_range_one :
  let st := exec (addLinks strictEnv
                    [("a", "b", mkLinkType (Some "arrow") (Some "solid") None, None);
                     ("b", "c", mkLinkType (Some "arrow") (Some "solid") None, None)]) initial in
  edges_defaultInterpolate (exec (updateLinkInterpolate [At 1%Z; Default] "basis") st)
    = (if decide (Default ∈ [At 1%Z; Default]) then Some "basis"
       else edges_defaultInterpolate st).
Proof.
  intros st. apply (updateLinkInterpolate_in_range [At 1%Z; Default] "basis" st).
  repeat constructor; vm_compute; congruence.
Defined.

(** The loops stop at the first integer position that is out of range. *)
Lemma forEach_throws_out_of_range (each : Position -> JS unit) :
  (forall st, each Default st = (Ok tt, snd (each Default st)) /\
              length (edges (snd (each Default st))) = length (edges st)) ->
  (forall i st, inRange (length (edges st)) (At i) ->
                each (At i) st = (Ok tt, snd (each (At i) st)) /\
                length (edges (snd (each (At i) st))) = length (edges st)) ->
  (forall i st, ~ inRange (length (edges st)) (At i) ->
                fst (each (At i) st) = Throw TypeError /\
                length (edges (snd (each (At i) st))) = length (edges st)) ->
  forall positions st,
    Exists (fun p => ~ inRange (length (edges st)) p) positions ->
    fst (forEach each positions st) = Throw TypeError /\
    length (edges (snd (forEach each positions st))) = length (edges st).
Proof.
  intros Hdef Hin Hout. induction positions as [|p positions IH]; intros st Hex.
  - now apply Exists_nil in Hex.
  - cbn [forEach]. unfold bind.
    destruct p as [|i].
    + destruct (Hdef st) as [Hrun Hlen]. rewrite Hrun.
      apply Exists_cons in Hex as [Hex|Hex]; [now destruct Hex|].
      rewrite <- Hlen in Hex. destruct (IH _ Hex) as [H1 H2]. split; [exact H1 | congruence].
    + destruct (decide (inRange (length (edges st)) (At i))) as [Hi|Hi].
      * destruct (Hin i st Hi) as [Hrun Hlen]. rewrite Hrun.
        apply Exists_cons in Hex as [Hex|Hex]; [done|].
        rewrite <- Hlen in Hex. destruct (IH _ Hex) as [H1 H2]. split; [exact H1 | congruence].
      * destruct (Hout i st Hi) as [Hthrow Hlen].
        destruct (each (At i) st) as [[u|e|] st1]; cbn [fst snd] in *; try discriminate.
        destruct e. split; [reflexivity | exact Hlen].
Qed.

Lemma updateLink_each_At_eq r i s :
  updateLink_each r (At i) s
    = updateEdge i (set_edge_style (Some r))
        (if (isSubstringInArray "fill" (styleOf r s) =? -1)%Z
         then with_styleArrays (alter (fun a => a ++ ["fill:none"]) r (styleArrays s)) s
         else s).
Proof.
  unfold updateLink_each, bind, get.
  destruct (isSubstringInArray "fill" (styleOf r s) =? -1)%Z; reflexivity.
Qed.

(** X10. The bulk updates do not check their positions: as soon as one
    integer position is below zero or not below the number of edges,
    [updateLinkInterpolate] and [updateLink] end with a [TypeError], and
    the edge list keeps its length. *)
Theorem bulk_updates_throw_out_of_range (positions : list Position) (interp : string)
    (style : list string) (st : State) :
  Exists (fun p => ~ inRange (length (edges st)) p) positions ->
  outcome (updateLinkInterpolate positions interp) st = Throw TypeError /\
  outcome (updateLink positions style) st = Throw TypeError /\
  length (edges (exec (updateLinkInterpolate positions interp) st)) = length (edges st) /\
  length (edges (exec (updateLink positions style) st)) = length (edges st).
Proof.
  intros Hex. unfold outcome, exec.
  assert (H1 : fst (updateLinkInterpolate positions interp st) = Throw TypeError /\
               length (edges (snd (updateLinkInterpolate positions interp st)))
                 = length (edges st)).
  { unfold updateLinkInterpolate. apply forEach_throws_out_of_range; [| | |exact Hex].
    - intros s. split; reflexivity.
    - intros i s Hi. destruct (edgeAt_in_range i s Hi) as [e He].
      rewrite (updateEdge_run i _ s e He). cbn [snd edges with_edges].
      split; [reflexivity | apply length_insert].
    - intros i s Hi. rewrite updateEdge_throws by now apply edgeAt_out_of_range.
      split; reflexivity. }
  assert (H2 : fst (updateLink positions style st) = Throw TypeError /\
               length (edges (snd (updateLink positions style st))) = length (edges st)).
  { rewrite updateLink_run. unfold updateLink_ref.
    change (length (edges st))
      with (length (edges (with_styleArrays (styleArrays st ++ [style]) st))).
    apply forEach_throws_out_of_range; [| | |exact Hex].
    - intros s. split; reflexivity.
    - intros i s Hi. destruct (edgeAt_in_range i s Hi) as [e He].
      rewrite updateLink_each_At_eq.
      destruct (isSubstringInArray "fill" (styleOf (length (styleArrays st)) s) =? -1)%Z.
      + rewrite (updateEdge_run i _ _ e) by exact He.
        cbn [snd edges with_edges with_styleArrays]. split; [reflexivity | apply length_insert].
      + rewrite (updateEdge_run i _ s e He).
        cbn [snd edges with_edges]. split; [reflexivity | apply length_insert].
    - intros i s Hi. pose proof (edgeAt_out_of_range i s Hi) as He.
      rewrite updateLink_each_At_eq.
      destruct (isSubstringInArray "fill" (styleOf (length (styleArrays st)) s) =? -1)%Z.
      + rewrite updateEdge_throws by exact He. split; reflexivity.
      + rewrite updateEdge_throws by exact He. split; reflexivity. }
  destruct H1 as [H1 H1'], H2 as [H2 H2']. repeat split; assumption.
Qed.

Lemma bulk_updates_throw_out_of_range_empty :
  outcome (updateLinkInterpolate [Default; At 0%Z] "basis") initial = Throw TypeError /\
  outcome (updateLink [Default; At 0%Z] ["stroke:red"]) initial = Throw TypeError /\
  length (edges (exec (updateLinkInterpolate [Default; At 0%Z] "basis") initial))
    = length (edges initial) /\
  length (edges (exec (updateLink [Default; At 0%Z] ["stroke:red"]) initial))
    = length (edges initial).
Proof.
  apply (bulk_updates_throw_out_of_range [Default; At 0%Z] "basis" ["stroke:red"] initial).
  apply Exists_cons. right. apply Exists_cons. left. vm_compute. intros [_ H]. discriminate.
Defined.

(** ** The class registry *)






Example addClass_twice_value :
  class_styles <$> getClasses (exec (addClass "warn" (Given ["fill:red"]) ;;
                                     addClass "warn" (Given ["stroke:2px"; "color:white"]))
                                 initial) !! "warn"
    = Some ["fill:red"; "stroke:2px"; "color:white"].
Proof. vm_compute. reflexivity. Qed.

(** ** Loops over id lists *)


(** What each step of a loop sets up for its element, and every step keeps,
    holds for every element at the end. *)
Lemma forEach_establishes {A} (f : A -> JS unit) (Q : A -> State -> Prop) (l : list A) :
  (forall x, x ∈ l -> forall s, fst (f x s) = Ok tt /\ Q x (snd (f x s))) ->
  (forall x y, preserves (Q x) (f y)) ->
  forall st x, x ∈ l -> Q x (snd (forEach f l st)).
Proof.
  intros Hset Hkeep. induction l as [|y l IH]; intros st x Hx.
  - now apply elem_of_nil in Hx.
  - cbn [forEach]. unfold bind.
    destruct (Hset y (list_elem_of_here y l) st) as [Hok Hq].
    destruct (f y st) as [[[]|e|] s1]; cbn [fst snd] in Hok, Hq; try discriminate.
    apply elem_of_cons in Hx as [->|Hx].
    + apply (preserves_forEach (Q y) f l); [intros z; apply Hkeep | exact Hq].
    + apply IH; [|exact Hx]. intros z Hz. apply Hset. now apply list_elem_of_further.
Qed.

(** ** Tooltips *)




(** ** Links on vertices *)











Example setLink_raw_tooltip_value :
  let st := exec (addVertex strictEnv (Some "1a") None None Undefined Undefined ;;
                  setLink strictEnv "1a" "http://x" (Some "tip")) initial in
  getTooltip "1a" st = Some "tip" /\ getTooltip "s1a" st = None /\
  vertex_link <$> getVertices st !! "s1a" = Some (Some "http://x") /\
  getVertices st !! "1a" = None.
Proof. vm_compute. repeat split. Qed.

(** ** Click bindings *)

Lemma setClass_keeps_funs ids className F :
  preserves (fun s => funs s = F) (setClass ids className).
Proof. unfold setClass, setClass_each. frame_tac. Qed.

Lemma setTooltip_keeps_funs env ids tooltip F :
  preserves (fun s => funs s = F) (setTooltip env ids tooltip).
Proof. unfold setTooltip. frame_tac. Qed.

(** X13. Under every security level but ['loose'], [setClickEvent] queues
    no click binding, whatever its arguments and whether it ends normally
    or throws: the list of functions to run after rendering stays as it
    was. *)
Theorem setClickEvent_strict_queues_nothing (env : Env) (ids : string)
    (functionName tooltip : option string) (st : State) :
  securityLevel env <> "loose" ->
  funs (exec (setClickEvent env ids functionName tooltip) st) = funs st.
Proof.
  intros Hlevel. unfold exec.
  apply (preserves_bind (fun s => funs s = funs st)); [| |reflexivity].
  - apply preserves_forEach. intros id. unfold setClickFun.
    apply preserves_bind; [apply preserves_prefixIfDigit|]. intros nid.
    destruct (String.eqb_spec (securityLevel env) "loose") as [?|_]; [done|].
    apply preserves_ret.
  - intros _. apply preserves_bind; [apply setTooltip_keeps_funs|].
    intros _. apply setClass_keeps_funs.
Qed.

Lemma setClickEvent_strict_queues_nothing_strict :
  funs (exec (setClickEvent strictEnv "a,b" (Some "callback") (Some "tip"))
          (exec (addVertex strictEnv (Some "a") None None Undefined Undefined) initial))
    = funs (exec (addVertex strictEnv (Some "a") None None Undefined Undefined) initial).
Proof. apply setClickEvent_strict_queues_nothing. discriminate. Defined.





Example setClickEvent_loose_value :
  funs (exec (addVertex (mkEnv "loose" (fun url => url)) (Some "1a") None None Undefined Undefined ;;
              setClickEvent (mkEnv "loose" (fun url => url)) "1a,b" (Some "callback") None) initial)
    = [setupToolTips; clickBinding "s1a" "callback"].
Proof. vm_compute. reflexivity. Qed.

(** ** Positions of subgraphs *)

Lemma getPosForId_from_spec id (l : list SubGraph) :
  forall i,
    (getPosForId_from i l id = (-1)%Z /\ (forall g, g ∈ l -> sg_id g <> id)) \/
    (exists k g,
       getPosForId_from i l id = (i + Z.of_nat k)%Z /\ l !! k = Some g /\ sg_id g = id /\
       forall j g', j < k -> l !! j = Some g' -> sg_id g' <> id).
Proof.
  induction l as [|g l IH]; intros i; cbn [getPosForId_from].
  - left. split; [reflexivity|]. intros g Hg. now apply elem_of_nil in Hg.
  - destruct (String.eqb_spec (sg_id g) id) as [Heq|Hne].
    + right. exists 0, g. split; [lia|]. split; [reflexivity|]. split; [exact Heq|].
      intros j g' Hj. lia.
    + destruct (IH (i + 1)%Z) as [[Hm Hall]|(k & g0 & Hp & Hk & Hid & Hfirst)].
      * left. split; [exact Hm|]. intros g' Hg'.
        apply elem_of_cons in Hg' as [->|Hg']; [exact Hne | now apply Hall].
      * right. exists (S k), g0. split; [lia|]. split; [exact Hk|]. split; [exact Hid|].
        intros j g' Hj Hg'. destruct j as [|j]; cbn in Hg'.
        -- now injection Hg' as <-.
        -- apply (Hfirst j g'); [lia | exact Hg'].
Qed.

Lemma getPosForId_cases (id : string) (st : State) :
  (getPosForId id st = (-1)%Z /\ forall g, g ∈ getSubGraphs st -> sg_id g <> id) \/
  (exists k g,
     getPosForId id st = Z.of_nat k /\ k < length (getSubGraphs st) /\
     getSubGraphs st !! k = Some g /\ sg_id g = id /\
     forall j g', j < k -> getSubGraphs st !! j = Some g' -> sg_id g' <> id).
Proof.
  unfold getPosForId, getSubGraphs.
  destruct (getPosForId_from_spec id (subGraphs st) 0) as [H|(k & g & Hp & Hk & Hid & Hfirst)].
  - now left.
  - right. exists k, g. split; [lia|]. split; [now apply lookup_lt_Some in Hk|].
    repeat split; assumption.
Qed.

(** X15. [getPosForId] gives [-1] exactly when no record of the ordered
    subgraph list has the id; otherwise it gives the position of the first
    record with that id, a position within the list. *)
Theorem getPosForId_first (id : string) (st : State) :
  (getPosForId id st = (-1)%Z <-> forall g, g ∈ getSubGraphs st -> sg_id g <> id) /\
  (-1 <= getPosForId id st < Z.of_nat (length (getSubGraphs st)))%Z /\
  (forall k, getPosForId id st = Z.of_nat k ->
     exists g, getSubGraphs st !! k = Some g /\ sg_id g = id /\
               forall j g', j < k -> getSubGraphs st !! j = Some g' -> sg_id g' <> id).
Proof.
  destruct (getPosForId_cases id st) as [[H Hnone]|(k & g & H & Hk & Hg & Hid & Hfirst)].
  - split; [split; [intros _; exact Hnone | intros _; exact H]|].
    split; [lia|]. intros k Hk. lia.
  - split; [split|].
    + intros Hm. lia.
    + intros Hnone. exfalso. apply (Hnone g); [|exact Hid].
      apply list_elem_of_lookup. now exists k.
    + split; [lia|]. intros k' Hk'. assert (k' = k) as -> by lia.
      exists g. repeat split; assumption.
Qed.

(** X16. In every state that a sequence of calls reaches, the id-keyed
    lookup and the search by position can disagree only in one direction:
    for an id of the lookup, [getPosForId] finds a record, and it is at or
    before the record the lookup leads to. So [setClass] marks the last
    record of an id and the indexer walks from the first. *)
Theorem getPosForId_before_lookup (env : Env) (calls : list Call) (id : string) (r : nat) :
  let st := run env calls initial in
  subGraphLookup st !! id = Some r ->
  (0 <= getPosForId id st <= Z.of_nat r)%Z.
Proof.
  cbn zeta. intros Hr.
  destruct (run_preserves env calls initial initial_lookupConsistent) as (_ & Hlast & _).
  destruct (Hlast id r Hr) as ((g & Hg & Hid) & Hmax).
  destruct (getPosForId_cases id (run env calls initial))
    as [[_ Hnone]|(k & g0 & Hp & Hk & Hg0 & Hid0 & _)]; unfold getSubGraphs in *.
  - exfalso. apply (Hnone g); [|exact Hid]. apply list_elem_of_lookup. now exists r.
  - rewrite Hp. pose proof (Hmax k g0 Hg0 Hid0). lia.
Qed.

Lemma getPosForId_before_lookup_twice :
  (0 <= getPosForId "A"
          (run strictEnv [CallAddSubGraph (Some "A") [["a"]] (Some "A");
                          CallAddSubGraph (Some "A") [["b"]] (Some "A")] initial)
     <= Z.of_nat 1)%Z.
Proof.
  apply (getPosForId_before_lookup strictEnv
           [CallAddSubGraph (Some "A") [["a"]] (Some "A");
            CallAddSubGraph (Some "A") [["b"]] (Some "A")] "A" 1).
  vm_compute. reflexivity.
Defined.

Example getPosForId_first_lookup_last :
  let st := run strictEnv [CallAddSubGraph (Some "A") [["a"]] (Some "A");
                           CallAddSubGraph (Some "A") [["b"]] (Some "A")] initial in
  getPosForId "A" st = 0%Z /\ subGraphLookup st !! "A" = Some 1.
Proof. vm_compute. split; reflexivity. Qed.

(** ** What the indexer writes *)

Lemma tableGrowsFrom_refl st : tableGrowsFrom st st.
Proof. split; [reflexivity|]. split; [lia|]. intros k. now left. Qed.

Lemma tableGrowsFrom_trans a b c :
  tableGrowsFrom a b -> tableGrowsFrom b c -> tableGrowsFrom a c.
Proof.
  intros (Hs1 & Hc1 & Ht1) (Hs2 & Hc2 & Ht2).
  split; [congruence|]. split; [lia|]. intros k.
  destruct (Ht2 k) as [Heq|(Hk & Hk' & v & Hv & Hsg)].
  - destruct (Ht1 k) as [Heq1|(Hk1 & Hk1' & v & Hv & Hsg)].
    + left. congruence.
    + right. split; [lia|]. split; [lia|]. exists v. split; [congruence | exact Hsg].
  - right. split; [lia|]. split; [lia|]. exists v. split; [exact Hv|].
    unfold subGraphAt in *. now rewrite <- Hs1.
Qed.

Lemma indexLoop_table recurse :
  (forall pos st, tableGrowsFrom st (snd (recurse pos st))) ->
  forall nodes posCount st, tableGrowsFrom st (snd (indexLoop recurse nodes posCount st)).
Proof.
  intros Hrec. induction nodes as [|n nodes IH]; intros posCount st.
  - apply tableGrowsFrom_refl.
  - cbn [indexLoop]. unfold bind at 1, get at 1.
    destruct (0 <=? getPosForId n st)%Z; [|apply IH].
    unfold bind at 1. pose proof (Hrec (getPosForId n st) st) as H1.
    destruct (recurse (getPosForId n st) st) as [[res|e|] st1]; cbn [snd] in H1 |- *;
      try exact H1.
    unfold bind at 1. destruct res as [res|]; cbn [defined]; [|exact H1].
    unfold ret at 1. destruct (result res); [exact H1|].
    eapply tableGrowsFrom_trans; [exact H1 | apply IH].
Qed.

(** One visit, unfolded: the state after lines 434 to 439. *)
Lemma indexNodes2_visit fuel id pos st sg :
  subGraphAt pos st = Some sg ->
  (secCount st + 1 <= 2000)%Z ->
  indexNodes2 (S fuel) id pos st
    = (let st2 := with_posCrossRef (<[(secCount st + 1)%Z := pos]> (posCrossRef st))
                    (with_secCount (secCount st + 1) st) in
       if String.eqb (sg_id sg) id then (Ok (Some (mkResult true 0)), st2)
       else match indexLoop (indexNodes2 fuel id) (sg_nodes sg) 1%Z st2 with
            | (Ok r, st') => (Ok (Some r), st')
            | (Throw e, st') => (Throw e, st')
            | (OutOfFuel, st') => (OutOfFuel, st')
            end).
Proof.
  intros Hsg Hcap. cbn [indexNodes2]. unfold bind at 1, get at 1, bind at 1.
  rewrite Hsg. cbn [defined]. unfold ret at 1, bind at 1, modify at 1, bind at 1, get at 1.
  cbn [secCount with_secCount].
  destruct (Z.ltb_spec 2000 (secCount st + 1)); [lia|].
  unfold bind at 1, modify at 1. cbn zeta.
  destruct (String.eqb (sg_id sg) id); [reflexivity|].
  unfold bind at 1.
  destruct (indexLoop _ _ _ _) as [[r|e|] st']; reflexivity.
Qed.

Lemma indexNodes2_table fuel id :
  forall pos st, tableGrowsFrom st (snd (indexNodes2 fuel id pos st)).
Proof.
  induction fuel as [|fuel IH]; intros pos st; [apply tableGrowsFrom_refl|].
  destruct (subGraphAt pos st) as [sg|] eqn:Hsg.
  2:{ cbn [indexNodes2]. unfold bind at 1, get at 1, bind at 1. rewrite Hsg.
      apply tableGrowsFrom_refl. }
  destruct (Z.le_gt_cases (secCount st + 1) 2000) as [Hcap|Hcap].
  2:{ cbn [indexNodes2]. unfold bind at 1, get at 1, bind at 1. rewrite Hsg.
      cbn [defined]. unfold ret at 1, bind at 1, modify at 1, bind at 1, get at 1.
      cbn [secCount with_secCount].
      destruct (Z.ltb_spec 2000 (secCount st + 1)); [|lia].
      cbn [ret snd]. split; [reflexivity|]. split; [cbn; lia|]. intros k. now left. }
  rewrite (indexNodes2_visit fuel id pos st sg Hsg Hcap). cbn zeta.
  set (st2 := with_posCrossRef _ _).
  assert (H2 : tableGrowsFrom st st2).
  { split; [reflexivity|]. split; [cbn; lia|]. intros k. cbn [posCrossRef with_posCrossRef secCount with_secCount st2].
    unfold st2. cbn [posCrossRef with_posCrossRef secCount with_secCount].
    destruct (decide (k = secCount st + 1)%Z) as [->|Hne].
    - right. split; [lia|]. split; [lia|]. exists pos. rewrite lookup_insert_eq.
      split; [reflexivity|]. rewrite Hsg. now eexists.
    - left. now rewrite lookup_insert_ne. }
  destruct (String.eqb (sg_id sg) id); [exact H2|].
  pose proof (indexLoop_table (indexNodes2 fuel id) IH (sg_nodes sg) 1%Z st2) as H3.
  destruct (indexLoop _ _ _ _) as [[r|e|] st']; cbn [snd] in H3 |- *;
    eapply tableGrowsFrom_trans; eauto.
Qed.

(** X17. Whatever the registry, and however the walk ends, [indexNodes]
    leaves the subgraph list alone and writes the position table only at
    the indices 0 to 2000: every other entry is what it was, and an entry
    that changed holds the position of a subgraph of the list. *)
Theorem indexNodes_writes_within_cap (st : State) :
  let st' := exec indexNodes st in
  getSubGraphs st' = getSubGraphs st /\
  (forall k, (k < 0 \/ 2000 < k)%Z -> getDepthFirstPos k st' = getDepthFirstPos k st) /\
  (forall k, getDepthFirstPos k st' = getDepthFirstPos k st \/
             exists v g, getDepthFirstPos k st' = Some v /\
                         (0 <= v)%Z /\ getSubGraphs st !! Z.to_nat v = Some g).
Proof.
  cbn zeta. unfold exec, getSubGraphs, getDepthFirstPos.
  assert (H : tableGrowsFrom (with_secCount (-1) st) (snd (indexNodes st))).
  { unfold indexNodes, indexNodes_fuel, bind at 1, modify at 1, bind at 1, get at 1.
    cbn [subGraphs with_secCount].
    destruct (0 <? length (subGraphs st))%nat; [|apply tableGrowsFrom_refl].
    unfold bind at 1.
    pose proof (indexNodes2_table 2002 "none" (Z.of_nat (length (subGraphs st)) - 1)
                  (with_secCount (-1) st)) as H.
    destruct (indexNodes2 2002 _ _ _) as [[r|e|] s1]; exact H. }
  destruct H as (Hs & _ & Ht). cbn [subGraphs secCount posCrossRef with_secCount] in Hs, Ht.
  split; [exact Hs|]. split.
  - intros k Hk. destruct (Ht k) as [Heq|(Hk' & _)]; [exact Heq | lia].
  - intros k. destruct (Ht k) as [Heq|(_ & _ & v & Hv & Hsg)]; [now left|].
    right. unfold subGraphAt in Hsg. cbn [subGraphs with_secCount] in Hsg.
    destruct (Z.ltb_spec v 0); [now destruct Hsg as [? ?]|].
    destruct Hsg as [g Hg]. exists v, g. repeat split; [exact Hv | lia | exact Hg].
Qed.

Lemma subGraphAt_last st :
  subGraphs st <> [] ->
  exists sg, subGraphAt (Z.of_nat (length (subGraphs st)) - 1) st = Some sg /\
             subGraphs st !! (length (subGraphs st) - 1) = Some sg.
Proof.
  intros Hne. unfold subGraphAt.
  assert (Hlen : 0 < length (subGraphs st)) by (destruct (subGraphs st); [done | cbn; lia]).
  destruct (Z.ltb_spec (Z.of_nat (length (subGraphs st)) - 1) 0); [lia|].
  replace (Z.to_nat (Z.of_nat (length (subGraphs st)) - 1)) with (length (subGraphs st) - 1) by lia.
  destruct (lookup_lt_is_Some_2 (subGraphs st) (length (subGraphs st) - 1)) as [sg Hsg]; [lia|].
  now exists sg.
Qed.

(** X18. When there is a subgraph, [indexNodes] puts the position of the
    last registered one at index 0 of the position table, whatever the
    shape of the registry and however the walk ends. *)
Theorem indexNodes_root_first (st : State) :
  getSubGraphs st <> [] ->
  getDepthFirstPos 0 (exec indexNodes st)
    = Some (Z.of_nat (length (getSubGraphs st)) - 1)%Z.
Proof.
  unfold getSubGraphs, getDepthFirstPos, exec. intros Hne.
  destruct (subGraphAt_last st Hne) as (sg & Hsg & _).
  assert (Hlen : (0 <? length (subGraphs st))%nat = true).
  { apply Nat.ltb_lt. destruct (subGraphs st); [done | cbn; lia]. }
  unfold indexNodes, indexNodes_fuel, bind at 1, modify at 1, bind at 1, get at 1.
  cbn [subGraphs with_secCount]. rewrite Hlen. unfold bind at 1.
  rewrite (indexNodes2_visit 2001 "none" _ (with_secCount (-1) st) sg) by (cbn; first [exact Hsg | lia]).
  cbn zeta. cbn [secCount posCrossRef with_secCount].
  set (st2 := with_posCrossRef _ _).
  assert (H0 : posCrossRef st2 !! 0%Z = Some (Z.of_nat (length (subGraphs st)) - 1)%Z)
    by (unfold st2; cbn [posCrossRef with_posCrossRef]; apply lookup_insert_eq).
  destruct (String.eqb (sg_id sg) "none"); [exact H0|].
  fold st2.
  pose proof (indexLoop_table (indexNodes2 2001 "none") (indexNodes2_table 2001 "none")
                (sg_nodes sg) 1%Z st2) as (_ & _ & Ht).
  destruct (Ht 0%Z) as [Heq|(Hk & _)].
  - destruct (indexLoop _ _ _ _) as [[r|e|] s3]; cbn [snd] in Heq;
      cbv beta iota delta [ret snd]; congruence.
  - unfold st2 in Hk. cbn [secCount with_posCrossRef with_secCount] in Hk. lia.
Qed.

Lemma indexNodes_root_first_cycle :
  getDepthFirstPos 0
    (exec indexNodes
       (exec (addSubGraph strictEnv (Some "A") [["B"]] (Some "A") ;;
              addSubGraph strictEnv (Some "B") [["A"]] (Some "B")) initial))
    = Some (Z.of_nat
              (length (getSubGraphs
                 (exec (addSubGraph strictEnv (Some "A") [["B"]] (Some "A") ;;
                        addSubGraph strictEnv (Some "B") [["A"]] (Some "B")) initial))) - 1)%Z.
Proof. apply indexNodes_root_first. vm_compute. discriminate. Defined.

Lemma indexLoop_no_subgraph recurse nodes posCount st :
  Forall (fun n => getPosForId n st = (-1)%Z) nodes ->
  indexLoop recurse nodes posCount st = (Ok (mkResult false posCount), st).
Proof.
  induction 1 as [|n nodes Hn _ IH]; cbn [indexLoop]; [reflexivity|].
  unfold bind at 1, get at 1. rewrite Hn. exact IH.
Qed.

(** X19. When no member of the last registered subgraph is the id of a
    subgraph, [indexNodes] ends normally after one visit: it resets the
    visit counter, which ends at 0, and writes the position of that
    subgraph at index 0; nothing else changes. Without any subgraph it only
    resets the counter. *)
Theorem indexNodes_flat_root (st : State) (root : SubGraph) :
  getSubGraphs st !! (length (getSubGraphs st) - 1) = Some root ->
  Forall (fun n => getPosForId n st = (-1)%Z) (sg_nodes root) ->
  indexNodes st
    = (Ok tt,
       with_posCrossRef
         (<[0%Z := (Z.of_nat (length (getSubGraphs st)) - 1)%Z]> (posCrossRef st))
         (with_secCount 0 st)).
Proof.
  unfold getSubGraphs. intros Hroot Hflat.
  assert (Hne : subGraphs st <> []) by (intros E; rewrite E in Hroot; discriminate).
  destruct (subGraphAt_last st Hne) as (sg & Hsg & Hsg').
  assert (sg = root) as -> by congruence.
  assert (Hlen : (0 <? length (subGraphs st))%nat = true).
  { apply Nat.ltb_lt. destruct (subGraphs st); [done | cbn; lia]. }
  unfold indexNodes, indexNodes_fuel, bind at 1, modify at 1, bind at 1, get at 1.
  cbn [subGraphs with_secCount]. rewrite Hlen. unfold bind at 1.
  rewrite (indexNodes2_visit 2001 "none" _ (with_secCount (-1) st) root) by (cbn; first [exact Hsg | lia]).
  cbn zeta. cbn [secCount posCrossRef with_secCount].
  destruct (String.eqb (sg_id root) "none"); [reflexivity|].
  rewrite indexLoop_no_subgraph; [reflexivity|].
  eapply Forall_impl; [exact Hflat|]. intros n Hn. exact Hn.
Qed.

Lemma indexNodes_flat_root_one :
  indexNodes (exec (addSubGraph strictEnv (Some "A") [["a"; "b"]] (Some "A")) initial)
    = (Ok tt,
       with_posCrossRef
         (<[0%Z := (Z.of_nat (length (getSubGraphs
                      (exec (addSubGraph strictEnv (Some "A") [["a"; "b"]] (Some "A")) initial)))
                    - 1)%Z]>
            (posCrossRef (exec (addSubGraph strictEnv (Some "A") [["a"; "b"]] (Some "A")) initial)))
         (with_secCount 0 (exec (addSubGraph strictEnv (Some "A") [["a"; "b"]] (Some "A")) initial))).
Proof.
  apply (indexNodes_flat_root
           (exec (addSubGraph strictEnv (Some "A") [["a"; "b"]] (Some "A")) initial)
           (mkSubGraph "A" ["a"; "b"] "A" [])).
  - vm_compute. reflexivity.
  - repeat constructor.
Defined.

Lemma indexNodes_empty st :
  subGraphs st = [] -> indexNodes st = (Ok tt, with_secCount (-1) st).
Proof.
  intros H. unfold indexNodes, indexNodes_fuel, bind, modify, get.
  cbn [subGraphs with_secCount]. now rewrite H.
Qed.

(** ** Registering subgraphs *)



Lemma finalId_canonical _id _title n : canonical (finalId _id _title n).
Proof.
  unfold finalId. apply normalize_canonical, orElse_nonempty. discriminate.
Qed.

Lemma finalId_synthetic _title n :
  finalId None _title n = "subGraph" +:+ decimal n.
Proof.
  unfold finalId.
  destruct (bool_decide (None = _title) && JsString.has_space (default EmptyString _title));
    reflexivity.
Qed.

(** X20. A call of [addSubGraph] with an id or a title, on members among
    which there is neither ['hasOwnProperty'] nor ['__proto__'], and with an
    id other than ['__proto__'], appends one record to the ordered list,
    leaves the records before it as they were, counts the call, and points
    the lookup at the new record under the id it returns; this id does not
    begin with a digit, the search by position finds it, and the new record
    has the sanitized and trimmed title and no classes. Every other id of
    the lookup stays. *)
Theorem addSubGraph_registers (env : Env) (_id : option string)
    (list : list (list string)) (_title : option string) (st : State) :
  _id <> None \/ _title <> None ->
  plainMembers (concat list) ->
  _id <> Some "__proto__" ->
  let st' := exec (addSubGraph env _id list _title) st in
  exists id g,
    outcome (addSubGraph env _id list _title) st = Ok id /\
    canonical id /\
    subGraphLookup st' !! id = Some (length (getSubGraphs st)) /\
    getSubGraphs st' !! length (getSubGraphs st) = Some g /\
    sg_id g = id /\
    sg_title g = JsString.trim (sanitize env (orElse _title EmptyString)) /\
    sg_classes g = [] /\
    length (getSubGraphs st') = S (length (getSubGraphs st)) /\
    (forall j, j < length (getSubGraphs st) -> getSubGraphs st' !! j = getSubGraphs st !! j) /\
    (forall k, k <> id -> subGraphLookup st' !! k = subGraphLookup st !! k) /\
    subCount st' = subCount st + 1 /\
    (0 <= getPosForId id st')%Z.
Proof.
  intros Hdef Hplain _. cbn zeta. unfold outcome, exec, getSubGraphs.
  rewrite addSubGraph_run by done. cbn [fst snd].
  set (id := finalId _id _title (subCount st)).
  set (g := mkSubGraph id (memberList list) _ []).
  set (st' := with_subGraphLookup _ _).
  exists id, g.
  assert (Hg : subGraphs st' !! length (subGraphs st) = Some g).
  { unfold st'. cbn [subGraphs with_subGraphLookup with_subGraphs].
    rewrite lookup_app_r by lia. now rewrite Nat.sub_diag. }
  split; [reflexivity|]. split; [apply finalId_canonical|].
  split; [unfold st'; cbn [subGraphLookup with_subGraphLookup]; apply lookup_insert_eq|].
  split; [exact Hg|]. split; [reflexivity|]. split; [reflexivity|]. split; [reflexivity|].
  split; [unfold st'; cbn [subGraphs with_subGraphLookup with_subGraphs];
          rewrite length_app; cbn; lia|].
  split; [intros j Hj; unfold st'; cbn [subGraphs with_subGraphLookup with_subGraphs];
          now apply lookup_app_l|].
  split; [intros k Hk; unfold st'; cbn [subGraphLookup with_subGraphLookup];
          now apply lookup_insert_ne|].
  split; [reflexivity|].
  destruct (getPosForId_cases id st') as [[_ Hnone]|(k & g0 & Hp & _)]; [|lia].
  exfalso. apply (Hnone g); [|reflexivity].
  apply list_elem_of_lookup. unfold getSubGraphs. exists (length (subGraphs st)). exact Hg.
Qed.

Lemma addSubGraph_registers_title_only :
  exists id g,
    outcome (addSubGraph strictEnv (Some "my title") [["a"]] (Some "my title")) initial = Ok id /\
    canonical id /\
    subGraphLookup (exec (addSubGraph strictEnv (Some "my title") [["a"]] (Some "my title")) initial)
      !! id = Some (length (getSubGraphs initial)) /\
    getSubGraphs (exec (addSubGraph strictEnv (Some "my title") [["a"]] (Some "my title")) initial)
      !! length (getSubGraphs initial) = Some g /\
    sg_id g = id /\
    sg_title g = JsString.trim (sanitize strictEnv (orElse (Some "my title") EmptyString)) /\
    sg_classes g = [] /\
    length (getSubGraphs (exec (addSubGraph strictEnv (Some "my title") [["a"]] (Some "my title")) initial))
      = S (length (getSubGraphs initial)) /\
    (forall j, j < length (getSubGraphs initial) ->
       getSubGraphs (exec (addSubGraph strictEnv (Some "my title") [["a"]] (Some "my title")) initial) !! j
         = getSubGraphs initial !! j) /\
    (forall k, k <> id ->
       subGraphLookup (exec (addSubGraph strictEnv (Some "my title") [["a"]] (Some "my title")) initial) !! k
         = subGraphLookup initial !! k) /\
    subCount (exec (addSubGraph strictEnv (Some "my title") [["a"]] (Some "my title")) initial)
      = subCount initial + 1 /\
    (0 <= getPosForId id
            (exec (addSubGraph strictEnv (Some "my title") [["a"]] (Some "my title")) initial))%Z.
Proof.
  apply (addSubGraph_registers strictEnv (Some "my title") [["a"]] (Some "my title") initial).
  - left. discriminate.
  - now apply (bool_decide_unpack _).
  - discriminate.
Defined.



(** ** The filter of member lists *)

Lemma dedupFirst_elem (l : list string) x : x ∈ dedupFirst l <-> x ∈ l.
Proof.
  split; [apply dedupFirst_subset|].
  induction l as [|y l IH]; [done|]. cbn [dedupFirst].
  rewrite !elem_of_cons, list_elem_of_filter.
  intros [->|Hx]; [now left|].
  destruct (decide (x = y)) as [->|Hne]; [now left | right; auto].
Qed.

Lemma dedupFirst_sublist (l : list string) : dedupFirst l `sublist_of` l.
Proof.
  induction l as [|y l IH]; [done|]. cbn [dedupFirst].
  apply sublist_skip. etrans; [apply sublist_filter | exact IH].
Qed.

Lemma filter_all {A} (P : A -> Prop) `{!forall x, Decision (P x)} (l : list A) :
  Forall P l -> filter P l = l.
Proof.
  induction 1 as [|x l Hx _ IH]; [reflexivity|].
  rewrite filter_cons, decide_True by done. now rewrite IH.
Qed.

Lemma dedupFirst_NoDup_id (l : list string) : NoDup l -> dedupFirst l = l.
Proof.
  induction 1 as [|x l Hx Hnd IH]; [reflexivity|]. cbn [dedupFirst]. rewrite IH.
  f_equal. apply filter_all. apply Forall_forall. intros y Hy ->. done.
Qed.

(** X22. On a list in which there is neither ['hasOwnProperty'] nor
    ['__proto__'], the filter [uniq] of [addSubGraph] does not throw and
    keeps exactly the entries that are not blank, each once and in the order
    of its first occurrence: its result has no repetition, is a sublist of
    its argument, has the same entries as the argument apart from the blank
    ones, and is left as it is by a second pass. *)
Theorem uniq_keeps_first_occurrences (a : list string) :
  plainMembers a ->
  exists u,
    uniq a = Some u /\
    NoDup u /\
    u `sublist_of` a /\
    (forall x, x ∈ u <-> x ∈ a /\ nonBlank x) /\
    uniq u = Some u.
Proof.
  intros Hplain. exists (dedupFirst (filter nonBlank a)).
  assert (Hel : forall x, x ∈ dedupFirst (filter nonBlank a) <-> x ∈ a /\ nonBlank x).
  { intros x. rewrite dedupFirst_elem, list_elem_of_filter. tauto. }
  split; [now apply uniq_dedupFirst|]. split; [apply dedupFirst_NoDup|].
  split; [etrans; [apply dedupFirst_sublist | apply sublist_filter]|].
  split; [exact Hel|].
  rewrite uniq_dedupFirst.
  - f_equal. rewrite (filter_all nonBlank).
    + apply dedupFirst_NoDup_id, dedupFirst_NoDup.
    + apply Forall_forall. intros x Hx. now apply Hel in Hx.
  - destruct Hplain as [Hh Hp]. split; intros Hx; apply Hel in Hx; tauto.
Qed.

Lemma uniq_keeps_first_occurrences_abab :
  exists u,
    uniq ["a"; " "; "b"; "a"; "b"] = Some u /\
    NoDup u /\
    u `sublist_of` ["a"; " "; "b"; "a"; "b"] /\
    (forall x, x ∈ u <-> x ∈ ["a"; " "; "b"; "a"; "b"] /\ nonBlank x) /\
    uniq u = Some u.
Proof.
  apply (uniq_keeps_first_occurrences ["a"; " "; "b"; "a"; "b"]).
  now apply (bool_decide_unpack _).
Defined.

(** Once ['hasOwnProperty'] is among the recorded members, the filter
    throws at the next entry that is not blank. *)
Lemma uniq_filter_after_hasOwnProperty (seen : gset string) (a : list string) :
  "hasOwnProperty" ∈ seen -> (uniq_filter seen a = None <-> Exists nonBlank a).
Proof.
  intros Hseen. induction a as [|item a IH]; cbn [uniq_filter].
  - split; [discriminate|]. intros H. now apply Exists_nil in H.
  - rewrite Exists_cons.
    destruct (String.eqb_spec (JsString.trim item) EmptyString) as [Hb|Hb].
    + rewrite IH. unfold nonBlank at 2. tauto.
    + rewrite bool_decide_eq_true_2 by done. split; [now left | done].
Qed.

Lemma hasOwnProperty_split (item : string) (a : list string) :
  item <> "hasOwnProperty" ->
  (exists l1 l2, item :: a = l1 ++ "hasOwnProperty" :: l2 /\ Exists nonBlank l2) <->
  (exists l1 l2, a = l1 ++ "hasOwnProperty" :: l2 /\ Exists nonBlank l2).
Proof.
  intros Hne. split.
  - intros ([|x l1] & l2 & Heq & Hex); cbn in Heq; injection Heq as -> ->; [done|].
    now exists l1, l2.
  - intros (l1 & l2 & -> & Hex). now exists (item :: l1), l2.
Qed.

Lemma uniq_filter_throws_iff (seen : gset string) (a : list string) :
  "hasOwnProperty" ∉ seen ->
  (uniq_filter seen a = None <->
   exists l1 l2, a = l1 ++ "hasOwnProperty" :: l2 /\ Exists nonBlank l2).
Proof.
  revert seen. induction a as [|item a IH]; intros seen Hseen.
  - cbn [uniq_filter]. split; [discriminate|].
    intros ([|x l1] & l2 & Heq & _); discriminate Heq.
  - cbn [uniq_filter].
    destruct (String.eqb_spec (JsString.trim item) EmptyString) as [Hb|Hb].
    { rewrite hasOwnProperty_split; [now apply IH|]. intros ->. discriminate Hb. }
    rewrite (bool_decide_eq_false_2 ("hasOwnProperty" ∈ seen)) by done.
    destruct (decide (item ∈ seen)) as [Hin|Hin].
    { rewrite bool_decide_eq_true_2 by done.
      rewrite hasOwnProperty_split; [now apply IH|]. now intros ->. }
    rewrite bool_decide_eq_false_2 by done.
    assert (Hmap : forall o : option (list string), cons item <$> o = None <-> o = None)
      by (intros [u|]; split; done).
    rewrite Hmap. destruct (decide (item = "hasOwnProperty")) as [->|Hne].
    + rewrite uniq_filter_after_hasOwnProperty
        by (unfold record_seen; cbn; apply elem_of_union_l, elem_of_singleton; reflexivity).
      split.
      * intros Hex. now exists [], a.
      * intros ([|x l1] & l2 & Heq & Hex); cbn in Heq.
        -- now injection Heq as ->.
        -- injection Heq as _ ->. apply Exists_app. right. now apply Exists_cons; right.
    + rewrite hasOwnProperty_split by done. apply IH. unfold record_seen.
      destruct (String.eqb item "__proto__"); [done|].
      rewrite not_elem_of_union, not_elem_of_singleton. split; [congruence | done].
Qed.

(** X25. The filter [uniq] of [addSubGraph] throws exactly on the lists that
    have a member ['hasOwnProperty'] with an entry that is not blank
    somewhere after it; and [addSubGraph] then throws a [TypeError] and
    leaves the registries as they were, whatever its id and title. *)
Theorem uniq_throws_iff (env : Env) (_id _title : option string)
    (list : list (list string)) (st : State) :
  (uniq (concat list) = None <->
   exists l1 l2, concat list = l1 ++ "hasOwnProperty" :: l2 /\ Exists nonBlank l2) /\
  ((exists l1 l2, concat list = l1 ++ "hasOwnProperty" :: l2 /\ Exists nonBlank l2) ->
   outcome (addSubGraph env _id list _title) st = Throw TypeError /\
   exec (addSubGraph env _id list _title) st = st).
Proof.
  assert (Hiff := uniq_filter_throws_iff ∅ (concat list) (not_elem_of_empty _)).
  split; [exact Hiff|]. intros Hex. apply Hiff in Hex.
  unfold outcome, exec. rewrite addSubGraph_stops by now right. now split.
Qed.

Lemma uniq_throws_iff_member_after :
  outcome (addSubGraph strictEnv (Some "g") [["a"; "hasOwnProperty"]; [" "; "b"]] (Some "t"))
    initial = Throw TypeError /\
  exec (addSubGraph strictEnv (Some "g") [["a"; "hasOwnProperty"]; [" "; "b"]] (Some "t"))
    initial = initial.
Proof.
  apply (uniq_throws_iff strictEnv (Some "g") (Some "t")
           [["a"; "hasOwnProperty"]; [" "; "b"]] initial).
  exists ["a"], [" "; "b"]. split; [reflexivity|].
  apply Exists_cons_tl, Exists_cons_hd. now apply (bool_decide_unpack _).
Defined.

(** ** The direction, once resolved *)

(** X23. After [setDirection] the direction is one of RL, BT, LR and TB or
    the token itself, and passing the stored direction to [setDirection]
    again leaves it as it is. *)
Theorem setDirection_resolved_is_stable (token : string) (st : State) :
  let st' := exec (setDirection token) st in
  exists d,
    getDirection st' = Some d /\
    (d = "RL" \/ d = "BT" \/ d = "LR" \/ d = "TB" \/ d = token) /\
    getDirection (exec (setDirection d) st') = Some d.
Proof.
  cbn zeta. unfold exec, getDirection. rewrite setDirection_run. cbn [snd direction with_direction].
  exists (resolveFirstMatch token). split; [reflexivity|].
  rewrite setDirection_run. cbn [snd direction with_direction].
  assert (H : resolveFirstMatch token = "RL" \/ resolveFirstMatch token = "BT" \/
              resolveFirstMatch token = "LR" \/ resolveFirstMatch token = "TB" \/
              resolveFirstMatch token = token).
  { unfold resolveFirstMatch.
    destruct (JsString.contains "<" token); [auto|].
    destruct (JsString.contains "^" token); [auto|].
    destruct (JsString.contains ">" token); [auto|].
    destruct (JsString.contains "v" token); auto 6. }
  destruct H as [H|[H|[H|[H|H]]]].
  - rewrite H. split; [auto | reflexivity].
  - rewrite H. split; [auto | reflexivity].
  - rewrite H. split; [auto | reflexivity].
  - rewrite H. split; [auto 6 | reflexivity].
  - split; [auto 6 | now rewrite !H].
Qed.

(** ** Blank entries in id lists *)





Example setClass_trailing_comma :
  outcome (setClass "a," "c") initial = Throw TypeError /\
  outcome (setClass EmptyString "c") initial = Throw TypeError /\
  outcome (setClass "a,b" "c") initial = Ok tt.
Proof. vm_compute. repeat split. Qed.
